(** * GRASP for the capacitated single-item lot-sizing problem (C-SILSP)

    A shallow embedding of [solvers/grasp_csilsp.py]: the decoder
    [decode_solution], the randomized constructor
    [greedy_randomized_construction], the bit-flip [local_search] and the
    multi-start driver [grasp], followed by the properties the
    specification states about them.

    Modelling conventions.
    - Python floats are modelled as exact rationals [Q]; the specification
      speaks of reals, and the concrete inputs used below are small
      integers and decimals on which both arithmetics take the same
      decisions.
    - Python lists are [list]s read with stdpp's lookup; a read out of
      range raises [IndexError], as in Python.
    - [time.time()] and [random.choice] read from oracles carried by the
      [world]: the k-th clock reading and the k-th random draw.
    - The [while] loops are run with fuel; running out is a separate
      outcome [OutOfFuel], and the theorems prove it does not happen. *)

From Stdlib Require Import Ascii QArith Qminmax Qabs Qround Qpower Lqa ZArith Lia List Bool Sorted.
From stdpp Require Import base list strings.

Local Open Scope Q_scope.

(** ** The Python runtime that the solver relies on *)

Module Py.

Inductive exn : Type := IndexError | ZeroDivisionError | ValueError.

Inductive res (A : Type) : Type :=
| Ok (a : A)
| Raise (e : exn)
| OutOfFuel.

Arguments Ok {A} a.
Arguments Raise {A} e.
Arguments OutOfFuel {A}.

Definition res_bind {A B} (r : res A) (k : A -> res B) : res B :=
  match r with
  | Ok a => k a
  | Raise e => Raise e
  | OutOfFuel => OutOfFuel
  end.

(** [l[t]] with a non-negative index. *)
Definition index {A} (l : list A) (t : nat) : res A :=
  match l !! t with
  | Some a => Ok a
  | None => Raise IndexError
  end.

(** [a < b] on floats. *)
Definition Qltb (a b : Q) : bool := negb (Qle_bool b a).

(** [sum(l)]: a left fold that starts at 0. *)
Definition py_sum (l : list Q) : Q := fold_left Qplus l 0.

(** [l[a:b]] for [0 <= a]; a slice never raises. *)
Definition slice {A} (l : list A) (a b : nat) : list A :=
  take (b - a) (drop a l).

(** [min] and [max] of a non-empty sequence [x, l...]: the first extreme
    element is kept. *)
Definition py_min (x : Q) (l : list Q) : Q :=
  fold_left (fun m c => if Qltb c m then c else m) l x.

Definition py_max (x : Q) (l : list Q) : Q :=
  fold_left (fun m c => if Qltb m c then c else m) l x.

(** The process-wide state: the wall clock and the global random source.
    [clock k] is what the k-th call of [time.time()] returns, [rand k] the
    k-th raw draw of the generator, and [reseed z] the stream of draws that
    [random.seed(z)] installs. *)
Record world : Type := World {
  clock : nat -> Q;
  ticks : nat;
  rand : nat -> nat;
  draws : nat;
  reseed : Z -> nat -> nat
}.

Definition M (A : Type) : Type := world -> res (A * world).

Definition ret {A} (a : A) : M A := fun w => Ok (a, w).

Definition bind {A B} (m : M A) (k : A -> M B) : M B :=
  fun w =>
    match m w with
    | Ok (a, w') => k a w'
    | Raise e => Raise e
    | OutOfFuel => OutOfFuel
    end.

Definition lift {A} (r : res A) : M A :=
  fun w =>
    match r with
    | Ok a => Ok (a, w)
    | Raise e => Raise e
    | OutOfFuel => OutOfFuel
    end.

(** [time.time()] *)
Definition time_time : M Q :=
  fun w => Ok (clock w (ticks w),
               World (clock w) (S (ticks w)) (rand w) (draws w) (reseed w)).

(** [random.seed(z)] *)
Definition random_seed (z : Z) : M unit :=
  fun w => Ok (tt, World (clock w) (ticks w) (reseed w z) O (reseed w)).

(** [random.randint(a, b)] *)
Definition random_randint (a b : Z) : M Z :=
  fun w =>
    if (b <? a)%Z then Raise ValueError
    else Ok ((a + Z.of_nat (rand w (draws w)) mod (b - a + 1))%Z,
             World (clock w) (ticks w) (rand w) (S (draws w)) (reseed w)).

(** [random.choice(l)]: [l[randbelow(len(l))]], and [IndexError] on an
    empty sequence. *)
Definition random_choice {A} (l : list A) : M A :=
  fun w =>
    match l !! (rand w (draws w) mod length l)%nat with
    | Some a => Ok (a, World (clock w) (ticks w) (rand w) (S (draws w)) (reseed w))
    | None => Raise IndexError
    end.

End Py.

Import Py.

Declare Scope py_scope.
Delimit Scope py_scope with py.

Notation "'let!' x ':=' e 'in' k" := (res_bind e (fun x => k))
  (at level 10, x name, e at level 100, k at level 200) : py_scope.

Notation "'let*' x ':=' e 'in' k" := (bind e (fun x => k))
  (at level 10, x name, e at level 100, k at level 200) : py_scope.

Local Open Scope py_scope.

(** ** Constants

    The float literals [1e15] and [1e6] of the source follow; its
    tolerances [1e-6] and [1e-9] are written [1 # 1000000] and
    [1 # 1000000000] throughout. *)

Definition BIGM : Q := 1000000000000000.
Definition PENALTY : Q := 1000000.

(** ** Decoder: from a setup vector [y] to [X], [I] and the cost *)

(** The backward loop [for t in range(T - 1, -1, -1)]; [n] is the number of
    periods still to visit, so the period visited is [n - 1]. *)
Fixpoint backward_loop (y : list Z) (d C : list Q)
    (n : nat) (X : list Q) (R : Q) : res (list Q * Q) :=
  match n with
  | O => Ok (X, R)
  | S t =>
      let! dt := index d t in
      let R := R + dt in
      let! yt := index y t in
      if (yt =? 1)%Z then
        let! Ct := index C t in
        let x_t := Qmin Ct R in
        backward_loop y d C t (<[t := x_t]> X) (R - x_t)
      else
        backward_loop y d C t X R
  end.

(** The inventory loop [for t in range(T)], started at [t] with [n] periods
    to go.  [inl inv] is the early return on a shortage, [inr I] the normal
    end of the loop. *)
Fixpoint inventory_loop (X d : list Q)
    (n t : nat) (I : list Q) (inv : Q) : res (Q + list Q) :=
  match n with
  | O => Ok (inr I)
  | S n' =>
      let! Xt := index X t in
      let! dt := index d t in
      let inv := inv + Xt - dt in
      if Qltb inv (- (1 # 1000000)) then Ok (inl inv)
      else inventory_loop X d n' (S t) (<[t := inv]> I) inv
  end.

(** The cost loop [for t in range(T)]. *)
Fixpoint cost_loop (y : list Z) (s p h X I : list Q)
    (n t : nat) (cost : Q) : res Q :=
  match n with
  | O => Ok cost
  | S n' =>
      let! st := index s t in
      let! yt := index y t in
      let! pt := index p t in
      let! Xt := index X t in
      let! ht := index h t in
      let! It := index I t in
      cost_loop y s p h X I n' (S t)
        (cost + (st * inject_Z yt + pt * Xt + ht * It))
  end.

(** What [decode_solution] returns: [(X, I, cost)], with [None] for the
    Python [None] in the first two places. *)
Definition decoded : Type := option (list Q) * option (list Q) * Q.

Definition decode_solution (y : list Z) (d C s p h : list Q)
    (bigM penalty : Q) : res decoded :=
  let T := length d in
  let X := replicate T 0 in
  let! bw := backward_loop y d C T X 0 in
  let '(X, R) := bw in
  if Qltb (1 # 1000000) R then
    Ok (None, None, bigM + R * penalty)
  else
    let I := replicate T 0 in
    let! fw := inventory_loop X d T 0 I 0 in
    match fw with
    | inl inv => Ok (None, None, bigM + Qabs inv * penalty)
    | inr I' =>
        let! cost := cost_loop y s p h X I' T 0 0 in
        Ok (Some X, Some I', cost)
    end.

(** ** Greedy randomized construction *)

(** [sum(p[k] * d[k] for k in range(t, end + 1))], from [k] with [n] terms
    to go. *)
Fixpoint prod_cost_loop (p d : list Q) (n k : nat) (acc : Q) : res Q :=
  match n with
  | O => Ok acc
  | S n' =>
      let! pk := index p k in
      let! dk := index d k in
      prod_cost_loop p d n' (S k) (acc + pk * dk)
  end.

(** [for k in range(t + 1, end + 1): cum += d[k]; hold_cost += h[k] * cum] *)
Fixpoint hold_cost_loop (h d : list Q) (n k : nat) (cum hold_cost : Q)
    : res Q :=
  match n with
  | O => Ok hold_cost
  | S n' =>
      let! dk := index d k in
      let cum := cum + dk in
      let! hk := index h k in
      hold_cost_loop h d n' (S k) cum (hold_cost + hk * cum)
  end.

(** [for L in range(1, L_max + 1)], at lot length [L] with [n] lengths to
    go ([Z.to_nat L_max] at the start: the range is empty for
    [L_max <= 0]); the result is the list [candidates] of pairs
    [(L, avg_cost)]. *)
Fixpoint candidates_loop (d C s p h : list Q) (t : nat)
    (n L : nat) (candidates : list (nat * Q)) : res (list (nat * Q)) :=
  match n with
  | O => Ok candidates
  | S n' =>
      let T := length d in
      let end_ := (t + L - 1)%nat in
      if (T <=? end_)%nat then Ok candidates
      else
        let dem := py_sum (slice d t (end_ + 1)) in
        let! cap := index C t in
        if Qltb (cap + (1 # 1000000)) dem then
          candidates_loop d C s p h t n' (S L) candidates
        else
          let! setup_cost := index s t in
          let! prod_cost := prod_cost_loop p d (end_ + 1 - t) t 0 in
          let! hold_cost :=
            hold_cost_loop h d (end_ + 1 - (t + 1)) (t + 1) 0 0 in
          if Qeq_bool (dem + (1 # 1000000000)) 0 then Raise ZeroDivisionError
          else
            let avg_cost :=
              (setup_cost + prod_cost + hold_cost) / (dem + (1 # 1000000000)) in
            candidates_loop d C s p h t n' (S L)
              (candidates ++ [(L, avg_cost)])
  end.

(** [c_min + alpha * (c_max - c_min + 1e-9)] over a non-empty candidate
    list. *)
Definition rcl_threshold (alpha : Q) (c0 : Q) (cs : list Q) : Q :=
  let c_min := py_min c0 cs in
  let c_max := py_max c0 cs in
  c_min + alpha * (c_max - c_min + (1 # 1000000000)).

(** [[L for L, c in candidates if c <= thresh]] *)
Definition build_RCL (thresh : Q) (candidates : list (nat * Q)) : list nat :=
  map fst (List.filter (fun lc => Qle_bool (snd lc) thresh) candidates).

(** The loop [while t < T].  Every iteration moves the cursor forward, so
    the fuel [T] that [greedy_randomized_construction] passes is never
    used up ([construction_loop_Ok]). *)
Fixpoint construction_loop (d C s p h : list Q) (alpha : Q) (L_max : Z)
    (fuel : nat) (y : list Z) (t : nat) : M (list Z) :=
  if (t <? length d)%nat then
    match fuel with
    | O => fun _ => OutOfFuel
    | S fuel' =>
        let* candidates :=
          lift (candidates_loop d C s p h t (Z.to_nat L_max) 1 []) in
        match candidates with
        | [] =>
            construction_loop d C s p h alpha L_max fuel'
              (<[t := 1%Z]> y) (t + 1)
        | (_, c0) :: rest =>
            let thresh := rcl_threshold alpha c0 (map snd rest) in
            let RCL := build_RCL thresh candidates in
            let* L_chosen := random_choice RCL in
            construction_loop d C s p h alpha L_max fuel'
              (<[t := 1%Z]> y) (t + L_chosen)
        end
    end
  else ret y.

Definition greedy_randomized_construction (d C s p h : list Q)
    (alpha : Q) (L_max : Z) : M (list Z) :=
  let T := length d in
  construction_loop d C s p h alpha L_max T (replicate T 0%Z) 0.

(** ** Local search *)

(** [y[t] ^= 1] *)
Definition flip (y : list Z) (t : nat) : res (list Z) :=
  let! yt := index y t in
  Ok (<[t := Z.lxor yt 1]> y).

(** [time_limit is not None and (time.time() - start_time) >= time_limit];
    the clock is read only when there is a limit. *)
Definition deadline_reached (time_limit : option Q) (start_time : Q)
    : M bool :=
  match time_limit with
  | None => ret false
  | Some limit =>
      let* now := time_time in
      ret (Qle_bool limit (now - start_time))
  end.

(** The sweep [for t in range(T)], at period [t] with [n] periods to go.
    It returns the vector, the best cost and the flag [improved]. *)
Fixpoint sweep_loop (d C s p h : list Q)
    (time_limit : option Q) (start_time : Q)
    (n t : nat) (y : list Z) (best_cost : Q) : M (list Z * Q * bool) :=
  match n with
  | O => ret (y, best_cost, false)
  | S n' =>
      let* stop := deadline_reached time_limit start_time in
      if stop then ret (y, best_cost, false)
      else
        let* y1 := lift (flip y t) in
        let* dec := lift (decode_solution y1 d C s p h BIGM PENALTY) in
        let cost := snd dec in
        if Qltb cost best_cost then ret (y1, cost, true)
        else
          let* y2 := lift (flip y1 t) in
          sweep_loop d C s p h time_limit start_time n' (S t) y2 best_cost
  end.

(** The loop [while improved].  An improving sweep strictly lowers the
    cost, so the loop runs at most once per setup vector; the fuel
    [2 ^ T + 1] that [local_search] passes is never used up
    ([search_loop_spec]). *)
Fixpoint search_loop (d C s p h : list Q)
    (time_limit : option Q) (start_time : Q)
    (fuel : nat) (y : list Z) (best_cost : Q) : M (list Z * Q) :=
  match fuel with
  | O => fun _ => OutOfFuel
  | S fuel' =>
      let* stop := deadline_reached time_limit start_time in
      if stop then ret (y, best_cost)
      else
        let* r :=
          sweep_loop d C s p h time_limit start_time (length d) 0
            y best_cost in
        let '(y, best_cost, improved) := r in
        if improved : bool then
          search_loop d C s p h time_limit start_time fuel' y best_cost
        else ret (y, best_cost)
  end.

Definition local_search (y : list Z) (d C s p h : list Q)
    (time_limit start_time : option Q) : M (list Z * Q) :=
  let T := length d in
  let* dec := lift (decode_solution y d C s p h BIGM PENALTY) in
  let best_cost := snd dec in
  let* start_time :=
    match start_time with
    | None => time_time
    | Some t0 => ret t0
    end in
  search_loop d C s p h time_limit start_time (S (2 ^ T)) y best_cost.

(** ** The GRASP driver *)

(** A convergence sample [(elapsed seconds, best cost so far)]. *)
Definition sample : Type := Q * Q.

(** The loop [for it in range(max_iter)], with [n] iterations to go. *)
Fixpoint grasp_loop (d C s p h : list Q) (alpha : Q) (L_max : Z)
    (time_limit : option Q) (start_time : Q)
    (n : nat) (best_y : list Z) (best_cost : Q) (log_convergencia : list sample)
    : M (list Z * Q * list sample) :=
  match n with
  | O => ret (best_y, best_cost, log_convergencia)
  | S n' =>
      let* stop := deadline_reached time_limit start_time in
      if stop then ret (best_y, best_cost, log_convergencia)
      else
        let T := length d in
        let* y_construida :=
          greedy_randomized_construction d C s p h alpha
            (Z.min L_max (Z.of_nat T)) in
        let* dec :=
          lift (decode_solution y_construida d C s p h BIGM PENALTY) in
        let cost_init := snd dec in
        if Qle_bool (BIGM / 2) cost_init then
          grasp_loop d C s p h alpha L_max time_limit start_time n'
            best_y best_cost log_convergencia
        else
          let* r :=
            local_search y_construida d C s p h time_limit
              (Some start_time) in
          let '(y, cost) := r in
          if Qltb cost best_cost then
            let* now := time_time in
            let tempo_agora := now - start_time in
            grasp_loop d C s p h alpha L_max time_limit start_time n'
              y cost (log_convergencia ++ [(tempo_agora, cost)])
          else
            grasp_loop d C s p h alpha L_max time_limit start_time n'
              best_y best_cost log_convergencia
  end.

(** What [grasp] returns: [(best_y, X, I, best_cost, log_convergencia)]. *)
Definition grasp_result : Type :=
  list Z * option (list Q) * option (list Q) * Q * list sample.

Definition grasp (d C s p h : list Q) (max_iter : Z) (alpha : Q)
    (L_max : Z) (seed : option Z) (time_limit : option Q)
    : M grasp_result :=
  let* _ :=
    match seed with
    | Some z => random_seed z
    | None => ret tt
    end in
  let T := length d in
  let* start_time := time_time in
  let y_trivial := replicate T 1%Z in
  let* dec := lift (decode_solution y_trivial d C s p h BIGM PENALTY) in
  let cost_trivial := snd dec in
  let* now := time_time in
  let log_convergencia := [(now - start_time + (1 # 1000000), cost_trivial)] in
  let* r :=
    grasp_loop d C s p h alpha L_max time_limit start_time
      (Z.to_nat max_iter) y_trivial cost_trivial log_convergencia in
  let '(best_y, best_cost, log_convergencia) := r in
  let* dec := lift (decode_solution best_y d C s p h BIGM PENALTY) in
  let '(X, I', _) := dec in
  ret (best_y, X, I', best_cost, log_convergencia).

(** ** The runner, for one loaded instance *)

(** The summary row the runner appends for an instance: the cost, the
    feasibility flag and the elapsed seconds. *)
Record row : Type := Row {
  custo_grasp : Q;
  factivel_grasp : bool;
  tempo_seg : Q
}.

(** The body of the loop of [run_grasp_on_all_instances] between the
    loading of an instance and the writing of its files. *)
Definition run_grasp_on_instance (d C s p h : list Q) (max_iter : Z)
    (alpha : Q) (L_max : Z) (time_limit : option Q)
    : M (row * list sample) :=
  let* t0 := time_time in
  let* seed := random_randint 1 (10 ^ 9) in
  let* r := grasp d C s p h max_iter alpha L_max (Some seed) time_limit in
  let '(y, X, I', cost, log_conv) := r in
  let* t1 := time_time in
  let elapsed := t1 - t0 in
  let factivel := Qltb cost (BIGM / 2) in
  ret (Row cost factivel elapsed, log_conv).

(** ** The decoder as the specification words it *)

(** The instance invariant: the five arrays have the same length [T]. *)
Definition same_length (d C s p h : list Q) : Prop :=
  length C = length d /\ length s = length d /\
  length p = length d /\ length h = length d.

(** An instance of the data model: equal lengths, and non-negative demand
    and capacity. *)
Definition wf_instance (d C s p h : list Q) : Prop :=
  same_length d C s p h /\ Forall (Qle 0) d /\ Forall (Qle 0) C.

(** A setup vector of 0/1 entries. *)
Definition binary (y : list Z) : Prop := Forall (fun b => b = 0%Z \/ b = 1%Z) y.

(** The mathematical sum of a list. *)
Definition total (l : list Q) : Q := fold_right Qplus 0 l.

(** Backward pass: the remaining demand [R] is accumulated from the last
    period to the first; a setup period produces [min(C[t], R)]. *)
Fixpoint backward_spec (y : list Z) (d C : list Q) : list Q * Q :=
  match y, d, C with
  | yt :: y', dt :: d', Ct :: C' =>
      let '(X, R) := backward_spec y' d' C' in
      let R := R + dt in
      if (yt =? 1)%Z then (Qmin Ct R :: X, R - Qmin Ct R) else (0 :: X, R)
  | _, _, _ => ([], 0)
  end.

(** Forward pass: the running inventory [inv + X[t] - d[t]]. *)
Fixpoint inventory_spec (inv : Q) (X d : list Q) : list Q :=
  match X, d with
  | Xt :: X', dt :: d' =>
      let inv := inv + Xt - dt in
      inv :: inventory_spec inv X' d'
  | _, _ => []
  end.

(** The cost of period [t]: [s[t] * y[t] + p[t] * X[t] + h[t] * I[t]]. *)
Definition period_cost (y : list Z) (s p h X I : list Q) (t : nat) : Q :=
  nth t s 0 * inject_Z (nth t y 0%Z) + nth t p 0 * nth t X 0
  + nth t h 0 * nth t I 0.

(** The sum of the period costs over [t = 0 .. T - 1]. *)
Definition plan_cost (y : list Z) (s p h X I : list Q) : Q :=
  fold_left Qplus (map (period_cost y s p h X I) (seq 0 (length X))) 0.

(** The inventory has dropped below the tolerance [-1e-6]. *)
Definition shortage (inv : Q) : bool := Qltb inv (- (1 # 1000000)).

(** The four steps of the decoder of the specification: the backward pass,
    the test of the residual, the forward pass with the test of the
    inventory, and the cost of the plan. *)
Definition decode_spec (y : list Z) (d C s p h : list Q) : decoded :=
  let '(X, R) := backward_spec y d C in
  if Qltb (1 # 1000000) R then (None, None, BIGM + R * PENALTY)
  else
    let Is := inventory_spec 0 X d in
    match List.find shortage Is with
    | Some inv => (None, None, BIGM + Qabs inv * PENALTY)
    | None => (Some X, Some Is, plan_cost y s p h X Is)
    end.

(** The decoded cost of a setup vector. *)
Definition cost_of (y : list Z) (d C s p h : list Q) : Q :=
  snd (decode_spec y d C s p h).

(** ** Auxiliary notions used in the proofs *)

(** Split a goal into its stated conjuncts, without unfolding anything. *)
Ltac splits := repeat match goal with |- _ /\ _ => split end.

(** The clock of [w'] is that of [w] and has not gone back. *)
Definition world_le (w w' : world) : Prop :=
  clock w' = clock w /\ (ticks w <= ticks w')%nat.

(** [v] is [y] with the low bit of some entries flipped: what a sequence
    of [y[t] ^= 1] can reach. *)
Definition flip_variant (v y : list Z) : Prop :=
  Forall2 (fun a b => a = b \/ a = Z.lxor b 1) v y.

(** The list of all such vectors. *)
Fixpoint flips_of (y : list Z) : list (list Z) :=
  match y with
  | [] => [[]]
  | b :: y' =>
      map (cons b) (flips_of y') ++ map (cons (Z.lxor b 1)) (flips_of y')
  end.

(** How many of them decode to a cost below [c]: the measure that bounds
    the number of improving sweeps of the local search. *)
Definition improving_count (d C s p h : list Q) (y0 : list Z) (c : Q) : nat :=
  length (List.filter (fun v => Qltb (cost_of v d C s p h) c) (flips_of y0)).

(** [descending c0 l c']: the costs [l] go strictly down from below [c0]
    and end at [c'] (which is [c0] when [l] is empty). *)
Fixpoint descending (c0 : Q) (l : list Q) (c' : Q) : Prop :=
  match l with
  | [] => c' = c0
  | c :: l' => c < c0 /\ descending c l' c'
  end.

(** [stamped clk start lo hi l]: the times [l] are [clk k - start] for
    clock readings [k] taken in increasing order within [lo, hi). *)
Fixpoint stamped (clk : nat -> Q) (start : Q) (lo hi : nat) (l : list Q)
    : Prop :=
  match l with
  | [] => (lo <= hi)%nat
  | tm :: l' =>
      exists k, (lo <= k < hi)%nat /\ tm = clk k - start /\
                stamped clk start (S k) hi l'
  end.

(** A wall clock that never goes back. *)
Definition monotone_clock (clk : nat -> Q) : Prop :=
  forall i j, (i <= j)%nat -> clk i <= clk j.

(** Adjacent elements of a list are related by [R]. *)
Fixpoint chain {A} (R : A -> A -> Prop) (l : list A) : Prop :=
  match l with
  | a :: (b :: _) as tl => R a b /\ chain R tl
  | _ => True
  end.

(** ** Concrete instances *)

(** Scenario A of the specification: three periods, ample capacity. *)
Module ScenarioA.
Definition d : list Q := [10; 10; 10].
Definition C : list Q := [30; 30; 30].
Definition s : list Q := [5; 5; 5].
Definition p : list Q := [1; 1; 1].
Definition h : list Q := [1; 1; 1].
End ScenarioA.

(** Scenario B of the specification: demand far above capacity. *)
Module ScenarioB.
Definition d : list Q := [10; 10; 10].
Definition C : list Q := [1; 1; 1].
Definition s : list Q := [5; 5; 5].
Definition p : list Q := [1; 1; 1].
Definition h : list Q := [1; 1; 1].
End ScenarioB.

(** Scenario A with a setup cost that makes one long lot cheaper. *)
Module CostlySetup.
Definition d : list Q := [10; 10; 10].
Definition C : list Q := [30; 30; 30].
Definition s : list Q := [100; 100; 100].
Definition p : list Q := [1; 1; 1].
Definition h : list Q := [1; 1; 1].
End CostlySetup.

(** All the capacity lies after the demand. *)
Module LateCapacity.
Definition d : list Q := [10; 0].
Definition C : list Q := [0; 100].
Definition s : list Q := [1; 1].
Definition p : list Q := [1; 1].
Definition h : list Q := [1; 1].
End LateCapacity.

(** One period whose setup costs more than [BIGM]. *)
Module HugeSetup.
Definition d : list Q := [1].
Definition C : list Q := [1].
Definition s : list Q := [2000000000000000].
Definition p : list Q := [1].
Definition h : list Q := [1].
End HugeSetup.

(** One period whose demand exceeds the capacity by [1e-7]. *)
Module TinyExcess.
Definition d : list Q := [1 # 10000000].
Definition C : list Q := [0].
Definition s : list Q := [1].
Definition p : list Q := [1].
Definition h : list Q := [1].
End TinyExcess.

(** A world whose clock is coarser than the whole run: every reading is
    the same. *)
Definition coarse_world : world :=
  World (fun _ => 0) 0 (fun k => k) 0 (fun _ k => k).

(** A world whose clock advances by one second per reading. *)
Definition ticking_world : world :=
  World (fun k => inject_Z (Z.of_nat k)) 0 (fun k => k) 0 (fun _ k => k).

(** ** The model that [solve_csilsp_mip] builds ([solvers/mip_csilsp.py]) *)





(** ** Reading an instance: [load_instance]

    The file is the list of the lines that iterating over it yields.  The
    built-ins [str.strip], [str.split], [int] and [float] are parameters:
    [py_int] and [py_float] return [None] where Python raises
    [ValueError]. *)

Inductive load_exn : Type :=
| LoadIndexError
| LoadValueError
| LoadAssertionError.

Definition lbind {A B} (r : load_exn + A) (k : A -> load_exn + B)
    : load_exn + B :=
  match r with
  | inl e => inl e
  | inr a => k a
  end.

(** What [load_instance] returns: [(T, d, s, p, h, C)]. *)
Definition loaded : Type :=
  Z * list Q * list Q * list Q * list Q * list Q.

Section Loader.

Variables (strip : string -> string) (split : string -> list string).
Variables (py_int : string -> option Z) (py_float : string -> option Q).

(** [[line.strip() for line in f if line.strip()]] *)
Definition stripped_lines (file : list string) : list string :=
  map strip
    (List.filter (fun line => negb (String.eqb (strip line) "")) file).

(** [list(map(float, tokens))] *)
Fixpoint map_float (tokens : list string) : option (list Q) :=
  match tokens with
  | [] => Some []
  | tok :: rest =>
      match py_float tok with
      | None => None
      | Some x =>
          match map_float rest with
          | None => None
          | Some xs => Some (x :: xs)
          end
      end
  end.

(** [list(map(float, lines[k].split()))] *)
Definition line_floats (lines : list string) (k : nat)
    : load_exn + list Q :=
  match lines !! k with
  | None => inl LoadIndexError
  | Some line =>
      match map_float (split line) with
      | None => inl LoadValueError
      | Some xs => inr xs
      end
  end.

(** [len(d) == T == len(s) == len(p) == len(h) == len(C)] *)
Definition consistent (T : Z) (d s p h C : list Q) : bool :=
  (Z.of_nat (length d) =? T)%Z && (T =? Z.of_nat (length s))%Z
  && (length s =? length p)%nat && (length p =? length h)%nat
  && (length h =? length C)%nat.

Definition load_instance (file : list string) : load_exn + loaded :=
  let lines := stripped_lines file in
  match lines !! 0%nat with
  | None => inl LoadIndexError
  | Some line0 =>
      match py_int line0 with
      | None => inl LoadValueError
      | Some T =>
          lbind (line_floats lines 1) (fun d =>
          lbind (line_floats lines 2) (fun s =>
          lbind (line_floats lines 3) (fun p =>
          lbind (line_floats lines 4) (fun h =>
          lbind (line_floats lines 5) (fun C =>
          if consistent T d s p h C then inr (T, d, s, p, h, C)
          else inl LoadAssertionError)))))
      end
  end.

End Loader.

(** ** Reading the class of an instance: [parse_class_from_path]

    The argument is the list [parts] of the components of the path of the
    instance relative to the base directory ([rel.split(os.sep)]). *)

(** [s.split(sep)] for a separator of one character. *)
Fixpoint split_on (sep : ascii) (s : string) : list string :=
  match s with
  | EmptyString => [EmptyString]
  | String c rest =>
      if Ascii.eqb c sep then EmptyString :: split_on sep rest
      else
        match split_on sep rest with
        | tok :: toks => String c tok :: toks
        | [] => [String c EmptyString]
        end
  end.

(** [s[n:]] *)
Fixpoint str_drop (n : nat) (s : string) : string :=
  match n, s with
  | O, _ => s
  | S n', String _ rest => str_drop n' rest
  | S _, EmptyString => EmptyString
  end.

(** [(T_val, tau_val, var_val)] *)
Definition class_params : Type := option Z * option Q * option Q.

Section ClassName.

Variables (py_int : string -> option Z) (py_float : string -> option Q).

(** The loop [for tok in tokens] inside [try: ... except Exception: pass]:
    a token that [int] or [float] rejects ends the loop with the values
    found so far. *)
Fixpoint parse_tokens (tokens : list string) (vals : class_params)
    : class_params :=
  match tokens with
  | [] => vals
  | tok :: rest =>
      let '(T_val, tau_val, var_val) := vals in
      if String.prefix "T" tok then
        match py_int (str_drop 1 tok) with
        | Some n => parse_tokens rest (Some n, tau_val, var_val)
        | None => vals
        end
      else if String.prefix "tau" tok then
        match py_float (str_drop 3 tok) with
        | Some x => parse_tokens rest (T_val, Some x, var_val)
        | None => vals
        end
      else if String.prefix "var" tok then
        match py_float (str_drop 3 tok) with
        | Some x => parse_tokens rest (T_val, tau_val, Some x)
        | None => vals
        end
      else parse_tokens rest vals
  end.

Definition parse_class_from_path (parts : list string) : class_params :=
  if (length parts <? 2)%nat then (None, None, None)
  else
    match parts with
    | classe :: _ => parse_tokens (split_on "_" classe) (None, None, None)
    | [] => (None, None, None)
    end.

(** A token on which the loop stops: its prefix selects [int] or [float]
    and the conversion of the rest raises. *)
Definition rejected (tok : string) : Prop :=
  (String.prefix "T" tok = true /\ py_int (str_drop 1 tok) = None) \/
  (String.prefix "T" tok = false /\ String.prefix "tau" tok = true /\
   py_float (str_drop 3 tok) = None) \/
  (String.prefix "T" tok = false /\ String.prefix "tau" tok = false /\
   String.prefix "var" tok = true /\ py_float (str_drop 3 tok) = None).

End ClassName.

(** The name [f"T{T}_tau{tau}_var{var}"] that the generator gives to the
    directory of a class, from the texts of the three values. *)
Definition nome_classe (T tau var : string) : string :=
  "T" +:+ T +:+ "_tau" +:+ tau +:+ "_var" +:+ var.

(** The text holds no underscore. *)
Definition no_underscore (s : string) : Prop :=
  ~ In "_"%char (String.list_ascii_of_string s).

(** ** Stand-ins for the built-ins, for concrete files

    [digits_int] reads a non-empty text of decimal digits, on which it
    agrees with [int]; [digits_float] reads the same texts as [float]
    does, and [split_spaces] splits at single spaces. *)

Fixpoint digits_value (s : string) (acc : Z) : option Z :=
  match s with
  | EmptyString => Some acc
  | String c rest =>
      let n := nat_of_ascii c in
      if ((48 <=? n) && (n <=? 57))%nat
      then digits_value rest (10 * acc + Z.of_nat (n - 48))%Z
      else None
  end.

Definition digits_int (s : string) : option Z :=
  match s with
  | EmptyString => None
  | _ => digits_value s 0%Z
  end.

Definition digits_float (s : string) : option Q :=
  match digits_int s with
  | Some n => Some (inject_Z n)
  | None => None
  end.

Definition split_spaces (s : string) : list string := split_on " " s.

Definition no_strip (s : string) : string := s.

(** The file of scenario A, and the same file cut after its fourth
    line. *)
Definition scenario_A_file : list string :=
  ["3"; "10 10 10"; ""; "5 5 5"; "1 1 1"; "1 1 1"; "30 30 30"].

Definition truncated_file : list string :=
  ["3"; "10 10 10"; ""; "5 5 5"; "1 1 1"].

(** ** The driver of [benchmark/grasp_csilsp.py]

    The earlier copy of the script: the same decoder, constructor and
    local search, and a driver that keeps no log and reads the clock only
    for the time limit. *)

Fixpoint grasp_loop_benchmark (d C s p h : list Q) (alpha : Q) (L_max : Z)
    (time_limit : option Q) (start_time : Q)
    (n : nat) (best_y : list Z) (best_cost : Q) : M (list Z * Q) :=
  match n with
  | O => ret (best_y, best_cost)
  | S n' =>
      let* stop := deadline_reached time_limit start_time in
      if stop then ret (best_y, best_cost)
      else
        let T := length d in
        let* y :=
          greedy_randomized_construction d C s p h alpha
            (Z.min L_max (Z.of_nat T)) in
        let* dec := lift (decode_solution y d C s p h BIGM PENALTY) in
        let cost_init := snd dec in
        if Qle_bool (BIGM / 2) cost_init then
          grasp_loop_benchmark d C s p h alpha L_max time_limit start_time
            n' best_y best_cost
        else
          let* r :=
            local_search y d C s p h time_limit (Some start_time) in
          let '(y, cost) := r in
          if Qltb cost best_cost then
            grasp_loop_benchmark d C s p h alpha L_max time_limit start_time
              n' y cost
          else
            grasp_loop_benchmark d C s p h alpha L_max time_limit start_time
              n' best_y best_cost
  end.

Definition grasp_benchmark (d C s p h : list Q) (max_iter : Z) (alpha : Q)
    (L_max : Z) (seed : option Z) (time_limit : option Q)
    : M (list Z * option (list Q) * option (list Q) * Q) :=
  let* _ :=
    match seed with
    | Some z => random_seed z
    | None => ret tt
    end in
  let T := length d in
  let* start_time := time_time in
  let y_trivial := replicate T 1%Z in
  let* dec := lift (decode_solution y_trivial d C s p h BIGM PENALTY) in
  let cost_trivial := snd dec in
  let* r :=
    grasp_loop_benchmark d C s p h alpha L_max time_limit start_time
      (Z.to_nat max_iter) y_trivial cost_trivial in
  let '(best_y, best_cost) := r in
  let* dec := lift (decode_solution best_y d C s p h BIGM PENALTY) in
  let '(X, I', _) := dec in
  ret (best_y, X, I', best_cost).

(** Two worlds with the same random source. *)
Definition same_random (w1 w2 : world) : Prop :=
  rand w1 = rand w2 /\ draws w1 = draws w2 /\ reseed w1 = reseed w2.

(** Two runs end alike: both return, with values related by [R] and the
    same random source left, or both raise the same exception. *)
Definition outcome_rel {A B} (R : A -> B -> Prop)
    (r1 : res (A * world)) (r2 : res (B * world)) : Prop :=
  match r1, r2 with
  | Ok (a, w1), Ok (b, w2) => R a b /\ same_random w1 w2
  | Raise e1, Raise e2 => e1 = e2
  | OutOfFuel, OutOfFuel => True
  | _, _ => False
  end.

(** ** The program in binary64 arithmetic

    A Python float is a binary64 number, and every [+], [-], [*] and [/]
    on floats returns the binary64 number nearest to the exact result,
    a tie going to the one with an even last bit.  The module [Binary64]
    repeats the decoder, the constructor, the local search and the driver
    with that rounding written out at every operation; comparisons, [min],
    [max] and [abs] are exact.  Finite numbers only: an overflow to [inf]
    and the [nan] that follows from it are outside the model.  The
    definitions above are the same program with the rounding left out. *)

(** [2 ^ k] *)
Definition pow2 (k : Z) : Q := 2 ^ k.

(** The binary exponent of a positive rational: the [e] with
    [2 ^ e <= x < 2 ^ (e + 1)]. *)
Definition ilog2 (x : Q) : Z :=
  let e := (Z.log2 (Qnum x) - Z.log2 (Zpos (Qden x)))%Z in
  if Qle_bool (pow2 e) x then e else (e - 1)%Z.

(** The nearest integer, a tie going to the even one. *)
Definition round_even (x : Q) : Z :=
  let f := Qfloor x in
  match Qcompare (x - inject_Z f) (1 # 2) with
  | Lt => f
  | Gt => (f + 1)%Z
  | Eq => if Z.even f then f else (f + 1)%Z
  end.

(** The exponent of the last place of a positive [x]: 52 binary places
    below its leading bit, and never below the subnormal spacing
    [2 ^ -1074]. *)
Definition ulp_exp (x : Q) : Z := Z.max (ilog2 x - 52) (-1074).

Definition b64_pos (x : Q) : Q :=
  let k := ulp_exp x in
  Qred (inject_Z (round_even (x / pow2 k)) * pow2 k).

(** Rounding to the nearest binary64 number, ties to even. *)
Definition b64 (x : Q) : Q :=
  match Qnum x with
  | Z0 => 0
  | Zpos _ => b64_pos x
  | Zneg _ => - b64_pos (- x)
  end.

(** A binary64 number: [n * 2 ^ k] with at most 53 significant bits. *)
Definition representable (x : Q) : Prop :=
  exists n k : Z,
    (Z.abs n <= 2 ^ 53)%Z /\ (-1074 <= k)%Z /\ x == inject_Z n * pow2 k.

(** The float operations [a + b], [a - b], [a * b]. *)
Definition fadd (a b : Q) : Q := b64 (a + b).
Definition fsub (a b : Q) : Q := b64 (a - b).
Definition fmul (a b : Q) : Q := b64 (a * b).

(** The float literals [1e-6] and [1e-9]: the binary64 numbers nearest to
    the decimals. *)
Definition tol6 : Q := b64 (1 # 1000000).
Definition tol9 : Q := b64 (1 # 1000000000).

(** [float(n)] for an [int], as in [s[t] * y[t]]. *)
Definition of_int (n : Z) : Q := b64 (inject_Z n).

(** An integer written [n # 1]. *)
Definition is_integer (x : Q) : Prop := Qden x = 1%positive.

(** [2 ^ 53]: up to it every integer is a binary64 number. *)
Definition two53 : Q := 9007199254740992.

(** Integer demand and capacity, as the generator of the repository
    writes them ([astype(int)]), with a total demand of at most
    [2 ^ 53]. *)
Definition integer_data (d C : list Q) : Prop :=
  Forall is_integer d /\ Forall is_integer C /\ total d <= two53.

Module Binary64.

(** [sum(l)] over floats. *)
Definition py_sum (l : list Q) : Q := fold_left fadd l 0.

(** *** Decoder *)

Fixpoint backward_loop (y : list Z) (d C : list Q)
    (n : nat) (X : list Q) (R : Q) : res (list Q * Q) :=
  match n with
  | O => Ok (X, R)
  | S t =>
      let! dt := index d t in
      let R := fadd R dt in
      let! yt := index y t in
      if (yt =? 1)%Z then
        let! Ct := index C t in
        let x_t := Qmin Ct R in
        backward_loop y d C t (<[t := x_t]> X) (fsub R x_t)
      else
        backward_loop y d C t X R
  end.

Fixpoint inventory_loop (X d : list Q)
    (n t : nat) (I : list Q) (inv : Q) : res (Q + list Q) :=
  match n with
  | O => Ok (inr I)
  | S n' =>
      let! Xt := index X t in
      let! dt := index d t in
      let inv := fsub (fadd inv Xt) dt in
      if Qltb inv (- tol6) then Ok (inl inv)
      else inventory_loop X d n' (S t) (<[t := inv]> I) inv
  end.

Fixpoint cost_loop (y : list Z) (s p h X I : list Q)
    (n t : nat) (cost : Q) : res Q :=
  match n with
  | O => Ok cost
  | S n' =>
      let! st := index s t in
      let! yt := index y t in
      let! pt := index p t in
      let! Xt := index X t in
      let! ht := index h t in
      let! It := index I t in
      cost_loop y s p h X I n' (S t)
        (fadd cost
           (fadd (fadd (fmul st (of_int yt)) (fmul pt Xt)) (fmul ht It)))
  end.

Definition decode_solution (y : list Z) (d C s p h : list Q)
    (bigM penalty : Q) : res decoded :=
  let T := length d in
  let X := replicate T 0 in
  let! bw := backward_loop y d C T X 0 in
  let '(X, R) := bw in
  if Qltb tol6 R then
    Ok (None, None, fadd bigM (fmul R penalty))
  else
    let I := replicate T 0 in
    let! fw := inventory_loop X d T 0 I 0 in
    match fw with
    | inl inv => Ok (None, None, fadd bigM (fmul (Qabs inv) penalty))
    | inr I' =>
        let! cost := cost_loop y s p h X I' T 0 0 in
        Ok (Some X, Some I', cost)
    end.

(** *** Greedy randomized construction *)

Fixpoint prod_cost_loop (p d : list Q) (n k : nat) (acc : Q) : res Q :=
  match n with
  | O => Ok acc
  | S n' =>
      let! pk := index p k in
      let! dk := index d k in
      prod_cost_loop p d n' (S k) (fadd acc (fmul pk dk))
  end.

Fixpoint hold_cost_loop (h d : list Q) (n k : nat) (cum hold_cost : Q)
    : res Q :=
  match n with
  | O => Ok hold_cost
  | S n' =>
      let! dk := index d k in
      let cum := fadd cum dk in
      let! hk := index h k in
      hold_cost_loop h d n' (S k) cum (fadd hold_cost (fmul hk cum))
  end.

Fixpoint candidates_loop (d C s p h : list Q) (t : nat)
    (n L : nat) (candidates : list (nat * Q)) : res (list (nat * Q)) :=
  match n with
  | O => Ok candidates
  | S n' =>
      let T := length d in
      let end_ := (t + L - 1)%nat in
      if (T <=? end_)%nat then Ok candidates
      else
        let dem := py_sum (slice d t (end_ + 1)) in
        let! cap := index C t in
        if Qltb (fadd cap tol6) dem then
          candidates_loop d C s p h t n' (S L) candidates
        else
          let! setup_cost := index s t in
          let! prod_cost := prod_cost_loop p d (end_ + 1 - t) t 0 in
          let! hold_cost :=
            hold_cost_loop h d (end_ + 1 - (t + 1)) (t + 1) 0 0 in
          if Qeq_bool (fadd dem tol9) 0 then Raise ZeroDivisionError
          else
            let avg_cost :=
              b64 (fadd (fadd setup_cost prod_cost) hold_cost
                   / fadd dem tol9) in
            candidates_loop d C s p h t n' (S L)
              (candidates ++ [(L, avg_cost)])
  end.

(** [c_min + alpha * (c_max - c_min + 1e-9)] *)
Definition rcl_threshold (alpha : Q) (c0 : Q) (cs : list Q) : Q :=
  let c_min := py_min c0 cs in
  let c_max := py_max c0 cs in
  fadd c_min (fmul alpha (fadd (fsub c_max c_min) tol9)).

Fixpoint construction_loop (d C s p h : list Q) (alpha : Q) (L_max : Z)
    (fuel : nat) (y : list Z) (t : nat) : M (list Z) :=
  if (t <? length d)%nat then
    match fuel with
    | O => fun _ => OutOfFuel
    | S fuel' =>
        let* candidates :=
          lift (candidates_loop d C s p h t (Z.to_nat L_max) 1 []) in
        match candidates with
        | [] =>
            construction_loop d C s p h alpha L_max fuel'
              (<[t := 1%Z]> y) (t + 1)
        | (_, c0) :: rest =>
            let thresh := rcl_threshold alpha c0 (map snd rest) in
            let RCL := build_RCL thresh candidates in
            let* L_chosen := random_choice RCL in
            construction_loop d C s p h alpha L_max fuel'
              (<[t := 1%Z]> y) (t + L_chosen)
        end
    end
  else ret y.

Definition greedy_randomized_construction (d C s p h : list Q)
    (alpha : Q) (L_max : Z) : M (list Z) :=
  let T := length d in
  construction_loop d C s p h alpha L_max T (replicate T 0%Z) 0.

(** *** Local search *)

Definition deadline_reached (time_limit : option Q) (start_time : Q)
    : M bool :=
  match time_limit with
  | None => ret false
  | Some limit =>
      let* now := time_time in
      ret (Qle_bool limit (fsub now start_time))
  end.

Fixpoint sweep_loop (d C s p h : list Q)
    (time_limit : option Q) (start_time : Q)
    (n t : nat) (y : list Z) (best_cost : Q) : M (list Z * Q * bool) :=
  match n with
  | O => ret (y, best_cost, false)
  | S n' =>
      let* stop := deadline_reached time_limit start_time in
      if stop then ret (y, best_cost, false)
      else
        let* y1 := lift (flip y t) in
        let* dec := lift (decode_solution y1 d C s p h BIGM PENALTY) in
        let cost := snd dec in
        if Qltb cost best_cost then ret (y1, cost, true)
        else
          let* y2 := lift (flip y1 t) in
          sweep_loop d C s p h time_limit start_time n' (S t) y2 best_cost
  end.

Fixpoint search_loop (d C s p h : list Q)
    (time_limit : option Q) (start_time : Q)
    (fuel : nat) (y : list Z) (best_cost : Q) : M (list Z * Q) :=
  match fuel with
  | O => fun _ => OutOfFuel
  | S fuel' =>
      let* stop := deadline_reached time_limit start_time in
      if stop then ret (y, best_cost)
      else
        let* r :=
          sweep_loop d C s p h time_limit start_time (length d) 0
            y best_cost in
        let '(y, best_cost, improved) := r in
        if improved : bool then
          search_loop d C s p h time_limit start_time fuel' y best_cost
        else ret (y, best_cost)
  end.

Definition local_search (y : list Z) (d C s p h : list Q)
    (time_limit start_time : option Q) : M (list Z * Q) :=
  let T := length d in
  let* dec := lift (decode_solution y d C s p h BIGM PENALTY) in
  let best_cost := snd dec in
  let* start_time :=
    match start_time with
    | None => time_time
    | Some t0 => ret t0
    end in
  search_loop d C s p h time_limit start_time (S (2 ^ T)) y best_cost.

(** *** The GRASP driver *)

Fixpoint grasp_loop (d C s p h : list Q) (alpha : Q) (L_max : Z)
    (time_limit : option Q) (start_time : Q)
    (n : nat) (best_y : list Z) (best_cost : Q) (log_convergencia : list sample)
    : M (list Z * Q * list sample) :=
  match n with
  | O => ret (best_y, best_cost, log_convergencia)
  | S n' =>
      let* stop := deadline_reached time_limit start_time in
      if stop then ret (best_y, best_cost, log_convergencia)
      else
        let T := length d in
        let* y_construida :=
          greedy_randomized_construction d C s p h alpha
            (Z.min L_max (Z.of_nat T)) in
        let* dec :=
          lift (decode_solution y_construida d C s p h BIGM PENALTY) in
        let cost_init := snd dec in
        if Qle_bool (b64 (BIGM / 2)) cost_init then
          grasp_loop d C s p h alpha L_max time_limit start_time n'
            best_y best_cost log_convergencia
        else
          let* r :=
            local_search y_construida d C s p h time_limit
              (Some start_time) in
          let '(y, cost) := r in
          if Qltb cost best_cost then
            let* now := time_time in
            let tempo_agora := fsub now start_time in
            grasp_loop d C s p h alpha L_max time_limit start_time n'
              y cost (log_convergencia ++ [(tempo_agora, cost)])
          else
            grasp_loop d C s p h alpha L_max time_limit start_time n'
              best_y best_cost log_convergencia
  end.

Definition grasp (d C s p h : list Q) (max_iter : Z) (alpha : Q)
    (L_max : Z) (seed : option Z) (time_limit : option Q)
    : M grasp_result :=
  let* _ :=
    match seed with
    | Some z => random_seed z
    | None => ret tt
    end in
  let T := length d in
  let* start_time := time_time in
  let y_trivial := replicate T 1%Z in
  let* dec := lift (decode_solution y_trivial d C s p h BIGM PENALTY) in
  let cost_trivial := snd dec in
  let* now := time_time in
  let log_convergencia :=
    [(fadd (fsub now start_time) tol6, cost_trivial)] in
  let* r :=
    grasp_loop d C s p h alpha L_max time_limit start_time
      (Z.to_nat max_iter) y_trivial cost_trivial log_convergencia in
  let '(best_y, best_cost, log_convergencia) := r in
  let* dec := lift (decode_solution best_y d C s p h BIGM PENALTY) in
  let '(X, I', _) := dec in
  ret (best_y, X, I', best_cost, log_convergencia).

(** *** The runner, for one loaded instance *)

Definition run_grasp_on_instance (d C s p h : list Q) (max_iter : Z)
    (alpha : Q) (L_max : Z) (time_limit : option Q)
    : M (row * list sample) :=
  let* t0 := time_time in
  let* seed := random_randint 1 (10 ^ 9) in
  let* r := grasp d C s p h max_iter alpha L_max (Some seed) time_limit in
  let '(y, X, I', cost, log_conv) := r in
  let* t1 := time_time in
  let elapsed := fsub t1 t0 in
  let factivel := Qltb cost (b64 (BIGM / 2)) in
  ret (Row cost factivel elapsed, log_conv).

End Binary64.

(** * Properties *)

(** ** Reading lists *)

Lemma index_lookup {A} (l : list A) (t : nat) (a : A) :
  l !! t = Some a -> index l t = Ok a.
Proof. unfold index. intros ->. reflexivity. Qed.

Lemma index_lt {A} (l : list A) (t : nat) :
  (t < length l)%nat -> exists a, l !! t = Some a /\ index l t = Ok a.
Proof.
  intros Hlt. destruct (lookup_lt_is_Some_2 l t Hlt) as [a Ha].
  exists a. split; [exact Ha | apply index_lookup, Ha].
Qed.

Lemma nth_lookup_Some {A} (l : list A) (t : nat) (a dflt : A) :
  l !! t = Some a -> nth t l dflt = a.
Proof.
  revert t. induction l as [|x l IH]; intros [|t] H; simpl in *; try discriminate.
  - congruence.
  - apply IH, H.
Qed.

Lemma take_replicate_pred {A} (l : list A) (t : nat) (a : A) :
  take (S t) l = replicate (S t) a -> take t l = replicate t a.
Proof.
  intros H. replace t with (t `min` S t)%nat at 1 by lia.
  rewrite <- take_take, H, take_replicate. f_equal. lia.
Qed.

(** ** The decoder computes what the specification describes *)

Section Decoder.

Variables (y : list Z) (d C s p h : list Q).

Lemma backward_loop_spec (n : nat) (X : list Q) (R : Q) :
  length y = length d -> length C = length d -> length X = length d ->
  (n <= length d)%nat ->
  take n X = replicate n 0 ->
  backward_spec (drop n y) (drop n d) (drop n C) = (drop n X, R) ->
  backward_loop y d C n X R = Ok (backward_spec y d C).
Proof.
  intros Hy HC. revert X R.
  induction n as [|t IH]; intros X R HX Hn Htake Hdone.
  - simpl. rewrite !drop_0 in Hdone. congruence.
  - simpl.
    destruct (index_lt d t ltac:(lia)) as (dt & Hdt & ->).
    destruct (index_lt y t ltac:(lia)) as (yt & Hyt & ->).
    destruct (index_lt C t ltac:(lia)) as (Ct & HCt & HCi).
    simpl.
    assert (HXt : X !! t = Some 0).
    { rewrite <- (lookup_take_lt X (S t) t) by lia.
      rewrite Htake. apply lookup_replicate_2. lia. }
    assert (Hstep :
      backward_spec (drop t y) (drop t d) (drop t C) =
      if (yt =? 1)%Z
      then (Qmin Ct (R + dt) :: drop (S t) X, R + dt - Qmin Ct (R + dt))
      else (0 :: drop (S t) X, R + dt)).
    { rewrite (drop_S y yt t Hyt), (drop_S d dt t Hdt), (drop_S C Ct t HCt).
      simpl. rewrite Hdone. reflexivity. }
    destruct (yt =? 1)%Z.
    + rewrite HCi. simpl. apply IH.
      * rewrite length_insert. exact HX.
      * lia.
      * rewrite take_insert_ge by lia.
        apply take_replicate_pred, Htake.
      * rewrite Hstep.
        rewrite (drop_S (<[t:=Qmin Ct (R + dt)]> X) (Qmin Ct (R + dt)) t).
        -- rewrite drop_insert_lt by lia. reflexivity.
        -- apply list_lookup_insert_eq. lia.
    + apply IH.
      * exact HX.
      * lia.
      * apply take_replicate_pred, Htake.
      * rewrite Hstep. rewrite (drop_S X 0 t HXt). reflexivity.
Qed.

Lemma backward_spec_length :
  length y = length d -> length C = length d ->
  length (fst (backward_spec y d C)) = length d.
Proof.
  clear s p h. revert d C.
  induction y as [|yt y' IH]; intros [|dt d'] [|Ct C'] Hy HC;
    simpl in *; try discriminate; try reflexivity.
  specialize (IH d' C' ltac:(lia) ltac:(lia)).
  destruct (backward_spec y' d' C') as [X R].
  destruct (yt =? 1)%Z; simpl in *; lia.
Qed.

Lemma inventory_spec_length (inv : Q) (X : list Q) :
  length X = length d -> length (inventory_spec inv X d) = length d.
Proof.
  clear. revert inv d.
  induction X as [|Xt X' IH]; intros inv [|dt d'] HX;
    simpl in *; try discriminate; try reflexivity.
  rewrite IH by lia. reflexivity.
Qed.

Lemma inventory_loop_spec (X : list Q) (n t : nat) (I : list Q) (inv : Q) :
  length X = length d -> length I = length d ->
  (t + n = length d)%nat ->
  inventory_loop X d n t I inv =
  Ok (match List.find shortage (inventory_spec inv (drop t X) (drop t d)) with
      | Some v => inl v
      | None => inr (take t I ++ inventory_spec inv (drop t X) (drop t d))
      end).
Proof.
  intros HX. revert t I inv.
  induction n as [|n' IH]; intros t I inv HI Ht.
  - simpl. rewrite !drop_ge by lia. simpl.
    rewrite app_nil_r, take_ge by lia. reflexivity.
  - simpl.
    destruct (index_lt X t ltac:(lia)) as (Xt & HXt & ->).
    destruct (index_lt d t ltac:(lia)) as (dt & Hdt & ->).
    simpl.
    rewrite (drop_S X Xt t HXt), (drop_S d dt t Hdt). simpl.
    fold (shortage (inv + Xt - dt)).
    destruct (shortage (inv + Xt - dt)); [reflexivity|].
    rewrite IH by (rewrite ?length_insert; lia).
    rewrite (take_S_r (<[t:=inv + Xt - dt]> I) t (inv + Xt - dt))
      by (apply list_lookup_insert_eq; lia).
    rewrite take_insert_ge by lia.
    destruct (List.find _ _); [reflexivity|].
    rewrite <- app_assoc. reflexivity.
Qed.

Lemma cost_loop_spec (X I : list Q) (n t : nat) (cost : Q) :
  (t + n <= length y)%nat -> (t + n <= length s)%nat ->
  (t + n <= length p)%nat -> (t + n <= length h)%nat ->
  (t + n <= length X)%nat -> (t + n <= length I)%nat ->
  cost_loop y s p h X I n t cost =
  Ok (fold_left Qplus (map (period_cost y s p h X I) (seq t n)) cost).
Proof.
  revert t cost.
  induction n as [|n' IH]; intros t cost Hy Hs Hp Hh HX HI.
  - reflexivity.
  - simpl.
    destruct (index_lt s t ltac:(lia)) as (st & Hst & ->).
    destruct (index_lt y t ltac:(lia)) as (yt & Hyt & ->).
    destruct (index_lt p t ltac:(lia)) as (pt & Hpt & ->).
    destruct (index_lt X t ltac:(lia)) as (Xt & HXt & ->).
    destruct (index_lt h t ltac:(lia)) as (ht & Hht & ->).
    destruct (index_lt I t ltac:(lia)) as (It & HIt & ->).
    simpl. rewrite IH by lia. unfold period_cost at 3.
    rewrite (nth_lookup_Some s t st 0 Hst), (nth_lookup_Some y t yt 0%Z Hyt),
      (nth_lookup_Some p t pt 0 Hpt), (nth_lookup_Some X t Xt 0 HXt),
      (nth_lookup_Some h t ht 0 Hht), (nth_lookup_Some I t It 0 HIt).
    reflexivity.
Qed.

(** On an instance with equal lengths and a setup vector of that length
    the decoder raises nothing and returns [decode_spec]. *)
Lemma decode_solution_spec :
  same_length d C s p h -> length y = length d ->
  decode_solution y d C s p h BIGM PENALTY = Ok (decode_spec y d C s p h).
Proof.
  intros (HC & Hs & Hp & Hh) Hy.
  unfold decode_solution, decode_spec.
  rewrite (backward_loop_spec (length d) (replicate (length d) 0) 0);
    try (rewrite ?length_replicate; lia).
  - simpl. pose proof (backward_spec_length Hy HC) as HX.
    destruct (backward_spec y d C) as [X R]. simpl in HX.
    destruct (Qltb (1 # 1000000) R); [reflexivity|].
    rewrite inventory_loop_spec by (rewrite ?length_replicate; lia).
    simpl. rewrite !drop_0.
    destruct (List.find shortage (inventory_spec 0 X d)) as [v|] eqn:Hfind;
      simpl; [reflexivity|].
    pose proof (inventory_spec_length 0 X HX) as HI.
    rewrite cost_loop_spec by lia.
    simpl. unfold plan_cost. rewrite HX. reflexivity.
  - rewrite take_ge by (rewrite length_replicate; lia). reflexivity.
  - rewrite !drop_ge by (rewrite ?length_replicate; lia). reflexivity.
Qed.

End Decoder.

(** ** Feasibility facts about the decoder *)

Lemma Qltb_true (a b : Q) : Qltb a b = true <-> a < b.
Proof.
  unfold Qltb. rewrite negb_true_iff, <- not_true_iff_false, Qle_bool_iff.
  split; [apply Qnot_le_lt | apply Qlt_not_le].
Qed.

Lemma Qltb_false (a b : Q) : Qltb a b = false <-> b <= a.
Proof.
  unfold Qltb. rewrite negb_false_iff, Qle_bool_iff. reflexivity.
Qed.

Lemma BIGM_half : BIGM / 2 == 500000000000000.
Proof. reflexivity. Qed.




Section DecoderFacts.






Lemma find_shortage_Some (l : list Q) (v : Q) :
  List.find shortage l = Some v -> v < - (1 # 1000000).
Proof.
  intros H. apply find_some in H as [_ H]. apply Qltb_true, H.
Qed.

Variables (y : list Z) (d C s p h : list Q).

(** The two shapes of a decoded result: a penalized score above [BIGM]
    with no plan, or a plan with its exact cost. *)
Lemma decode_spec_cases :
  (exists c, decode_spec y d C s p h = (None, None, c) /\ BIGM + 1 < c) \/
  (exists X Is, decode_spec y d C s p h =
                (Some X, Some Is, plan_cost y s p h X Is)).
Proof.
  unfold decode_spec.
  destruct (backward_spec y d C) as [X R].
  destruct (Qltb (1 # 1000000) R) eqn:ER.
  - left. eexists. split; [reflexivity|].
    apply Qltb_true in ER. unfold BIGM, PENALTY. lra.
  - destruct (List.find shortage (inventory_spec 0 X d)) as [v|] eqn:Ef.
    + left. eexists. split; [reflexivity|].
      apply find_shortage_Some in Ef.
      rewrite Qabs_neg by lra. unfold BIGM, PENALTY. lra.
    + right. eauto.
Qed.



End DecoderFacts.

(** ** Reasoning about the state and error monad *)

Lemma bind_Ok {A B} (m : M A) (k : A -> M B) (w w1 : world) (a : A) :
  m w = Ok (a, w1) -> bind m k w = k a w1.
Proof. unfold bind. intros ->. reflexivity. Qed.

Lemma bind_Ok_inv {A B} (m : M A) (k : A -> M B) (w w' : world) (b : B) :
  bind m k w = Ok (b, w') ->
  exists a w1, m w = Ok (a, w1) /\ k a w1 = Ok (b, w').
Proof.
  unfold bind. destruct (m w) as [[a w1]| |]; try discriminate.
  intros H. exists a, w1. split; [reflexivity | exact H].
Qed.

Lemma lift_Ok {A} (r : res A) (a : A) (w : world) :
  r = Ok a -> lift r w = Ok (a, w).
Proof. intros ->. reflexivity. Qed.

Lemma lift_Ok_inv {A} (r : res A) (a : A) (w w' : world) :
  lift r w = Ok (a, w') -> r = Ok a /\ w' = w.
Proof.
  unfold lift. destruct r; try discriminate.
  intros H. injection H as -> ->. split; reflexivity.
Qed.

Lemma res_bind_Ok_inv {A B} (r : res A) (k : A -> res B) (b : B) :
  res_bind r k = Ok b -> exists a, r = Ok a /\ k a = Ok b.
Proof.
  destruct r as [a| |]; simpl; try discriminate. intros H. eauto.
Qed.

Lemma world_le_refl (w : world) : world_le w w.
Proof. split; [reflexivity | lia]. Qed.

Lemma world_le_trans (w1 w2 w3 : world) :
  world_le w1 w2 -> world_le w2 w3 -> world_le w1 w3.
Proof. intros [E1 L1] [E2 L2]. split; [congruence | lia]. Qed.

Lemma time_time_le (w w' : world) (now : Q) :
  time_time w = Ok (now, w') ->
  now = clock w (ticks w) /\ clock w' = clock w /\ ticks w' = S (ticks w).
Proof.
  unfold time_time. intros H. injection H as <- <-. simpl. auto.
Qed.

Lemma random_choice_Ok {A} (l : list A) (w : world) :
  l <> [] ->
  exists a, In a l /\
    random_choice l w =
    Ok (a, World (clock w) (ticks w) (rand w) (S (draws w)) (reseed w)).
Proof.
  intros Hl. unfold random_choice.
  assert (Hlt : (rand w (draws w) mod length l < length l)%nat).
  { apply Nat.mod_upper_bound. destruct l; [congruence | simpl; lia]. }
  destruct (lookup_lt_is_Some_2 l _ Hlt) as [a Ha].
  rewrite Ha. exists a. split; [|reflexivity].
  apply list_elem_of_In, list_elem_of_lookup. eauto.
Qed.

Lemma random_choice_inv {A} (l : list A) (w w' : world) (a : A) :
  random_choice l w = Ok (a, w') ->
  In a l /\ clock w' = clock w /\ ticks w' = ticks w.
Proof.
  unfold random_choice.
  destruct (l !! _) as [x|] eqn:E; try discriminate.
  intros H. injection H as <- <-. simpl. repeat split.
  apply list_elem_of_In, list_elem_of_lookup. eauto.
Qed.


(** ** The constructor *)

Lemma py_min_In (x : Q) (l : list Q) : In (py_min x l) (x :: l).
Proof.
  unfold py_min. revert x.
  induction l as [|c l IH]; intros x; simpl; [auto|].
  destruct (IH (if Qltb c x then c else x)) as [E|HIn].
  - destruct (Qltb c x); rewrite <- E; auto.
  - auto.
Qed.


Lemma py_max_ge (x : Q) (l : list Q) (c : Q) :
  In c (x :: l) -> c <= py_max x l.
Proof.
  unfold py_max. revert x c.
  assert (Hacc : forall l x, x <= fold_left (fun m c => if Qltb m c then c else m) l x).
  { clear. induction l as [|c l IH]; intros x; simpl; [lra|].
    specialize (IH (if Qltb x c then c else x)).
    destruct (Qltb x c) eqn:E; [apply Qltb_true in E; lra | exact IH]. }
  induction l as [|c' l IH]; intros x c [->|HIn]; simpl.
  - lra.
  - destruct HIn.
  - specialize (Hacc l (if Qltb c c' then c' else c)).
    destruct (Qltb c c') eqn:E; [apply Qltb_true in E; lra | exact Hacc].
  - destruct HIn as [->|HIn].
    + specialize (Hacc l (if Qltb x c then c else x)).
      destruct (Qltb x c) eqn:E; [exact Hacc | apply Qltb_false in E; lra].
    + apply IH. right. exact HIn.
Qed.

Lemma py_sum_nonneg (l : list Q) : Forall (Qle 0) l -> 0 <= py_sum l.
Proof.
  intros H. unfold py_sum.
  assert (G : forall acc, 0 <= acc -> 0 <= fold_left Qplus l acc).
  { induction H as [|x l Hx _ IH]; intros a Ha; simpl; [exact Ha|].
    apply IH. lra. }
  apply G. lra.
Qed.

Lemma slice_nonneg (l : list Q) (a b : nat) :
  Forall (Qle 0) l -> Forall (Qle 0) (slice l a b).
Proof. intros H. unfold slice. apply Forall_take, Forall_drop, H. Qed.

Lemma prod_cost_loop_Ok (p d : list Q) (n k : nat) (acc : Q) :
  (k + n <= length p)%nat -> (k + n <= length d)%nat ->
  exists v, prod_cost_loop p d n k acc = Ok v.
Proof.
  revert k acc. induction n as [|n IH]; intros k acc Hp Hd; simpl.
  - eauto.
  - destruct (index_lt p k ltac:(lia)) as (pk & _ & ->).
    destruct (index_lt d k ltac:(lia)) as (dk & _ & ->).
    simpl. apply IH; lia.
Qed.

Lemma hold_cost_loop_Ok (h d : list Q) (n k : nat) (cum hold : Q) :
  (k + n <= length h)%nat -> (k + n <= length d)%nat ->
  exists v, hold_cost_loop h d n k cum hold = Ok v.
Proof.
  revert k cum hold. induction n as [|n IH]; intros k cum hold Hh Hd; simpl.
  - eauto.
  - destruct (index_lt d k ltac:(lia)) as (dk & _ & ->).
    destruct (index_lt h k ltac:(lia)) as (hk & _ & ->).
    simpl. apply IH; lia.
Qed.

Section Constructor.

Variables (d C s p h : list Q).

(** Whatever the loop returns extends the list it started from, with lot
    lengths not below the one it started at. *)
Lemma candidates_loop_lengths (t n L : nat) (acc cands : list (nat * Q)) :
  candidates_loop d C s p h t n L acc = Ok cands ->
  forall lc, In lc cands -> In lc acc \/ (L <= fst lc)%nat.
Proof.
  revert L acc cands.
  induction n as [|n IH]; intros L acc cands H lc Hlc; simpl in H.
  - injection H as <-. auto.
  - destruct (length d <=? t + L - 1)%nat.
    { injection H as <-. auto. }
    apply res_bind_Ok_inv in H as (cap & _ & H).
    destruct (Qltb _ _).
    { destruct (IH _ _ _ H lc Hlc); [auto | right; lia]. }
    apply res_bind_Ok_inv in H as (sc & _ & H).
    apply res_bind_Ok_inv in H as (pc & _ & H).
    apply res_bind_Ok_inv in H as (hc & _ & H).
    destruct (Qeq_bool _ _); [discriminate|].
    destruct (IH _ _ _ H lc Hlc) as [HIn|Hle]; [|right; lia].
    apply in_app_or in HIn as [HIn|[<-|[]]]; [auto | right; simpl; lia].
Qed.

(** On a well-formed instance the evaluation of the lots raises nothing. *)
Lemma candidates_loop_Ok (t n L : nat) (acc : list (nat * Q)) :
  wf_instance d C s p h -> (t < length d)%nat -> (1 <= L)%nat ->
  exists cands, candidates_loop d C s p h t n L acc = Ok cands.
Proof.
  intros ((HC & Hs & Hp & Hh) & Hd & _) Ht. revert L acc.
  induction n as [|n IH]; intros L acc HL; simpl.
  - eauto.
  - destruct (length d <=? t + L - 1)%nat eqn:Eend; [eauto|].
    apply Nat.leb_gt in Eend.
    destruct (index_lt C t ltac:(lia)) as (cap & _ & ->). simpl.
    destruct (Qltb _ _); [apply IH; lia|].
    destruct (index_lt s t ltac:(lia)) as (sc & _ & ->). simpl.
    destruct (prod_cost_loop_Ok p d (t + L - 1 + 1 - t) t 0
                ltac:(lia) ltac:(lia)) as (pc & ->). simpl.
    destruct (hold_cost_loop_Ok h d (t + L - 1 + 1 - (t + 1)) (t + 1) 0 0
                ltac:(lia) ltac:(lia)) as (hc & ->). simpl.
    destruct (Qeq_bool _ _) eqn:Ez.
    + apply Qeq_bool_eq in Ez.
      pose proof (py_sum_nonneg (slice d t (t + L - 1 + 1))
                    (slice_nonneg d _ _ Hd)). lra.
    + apply IH. lia.
Qed.

(** ** The restricted candidate list *)

Lemma build_RCL_In (thresh : Q) (cands : list (nat * Q)) (L : nat) :
  In L (build_RCL thresh cands) <->
  exists c, In (L, c) cands /\ c <= thresh.
Proof.
  unfold build_RCL. rewrite in_map_iff. split.
  - intros ([L' c] & <- & H). apply filter_In in H as [HIn Hle].
    simpl in *. apply Qle_bool_iff in Hle. eauto.
  - intros (c & HIn & Hle). exists (L, c). split; [reflexivity|].
    apply filter_In. split; [exact HIn|]. simpl. apply Qle_bool_iff, Hle.
Qed.

Lemma rcl_threshold_ge (alpha c0 : Q) (cs : list Q) :
  0 <= alpha -> py_min c0 cs <= rcl_threshold alpha c0 cs.
Proof.
  intros Ha. unfold rcl_threshold.
  pose proof (py_min_In c0 cs) as Hin.
  pose proof (py_max_ge c0 cs _ Hin) as Hle.
  assert (0 <= alpha * (py_max c0 cs - py_min c0 cs + (1 # 1000000000))).
  { apply Qmult_le_0_compat; lra. }
  lra.
Qed.

(** For a non-negative [alpha] the list is not empty: the cheapest lot is
    always in it. *)
Lemma build_RCL_nonempty (alpha : Q) (L0 : nat) (c0 : Q)
    (rest : list (nat * Q)) :
  0 <= alpha ->
  build_RCL (rcl_threshold alpha c0 (map snd rest)) ((L0, c0) :: rest) <> [].
Proof.
  intros Ha.
  pose proof (py_min_In c0 (map snd rest)) as Hin.
  change (c0 :: map snd rest) with (map snd ((L0, c0) :: rest)) in Hin.
  apply in_map_iff in Hin as ([L c] & Hc & HIn). simpl in Hc.
  assert (In L (build_RCL (rcl_threshold alpha c0 (map snd rest))
                  ((L0, c0) :: rest))) as HL.
  { apply build_RCL_In. exists c. split; [exact HIn|].
    rewrite Hc. apply rcl_threshold_ge, Ha. }
  intros E. rewrite E in HL. destruct HL.
Qed.

(** ** The loop over the cursor *)

Lemma binary_insert_1 (y : list Z) (t : nat) :
  binary y -> binary (<[t := 1%Z]> y).
Proof.
  intros Hy. unfold binary.
  destruct (decide (t < length y)%nat) as [Hlt|Hge].
  - apply Forall_insert; auto.
  - rewrite list_insert_ge by lia. exact Hy.
Qed.

(** What holds of anything the loop returns, for every [alpha] and
    [L_max]: the vector keeps its length, no setup is removed, a setup
    stands at the cursor the loop was entered with, and only the random
    source has advanced. *)
Lemma construction_loop_sets (alpha : Q) (L_max : Z) (fuel : nat) :
  forall (y : list Z) (t : nat) (w w' : world) (y' : list Z),
  construction_loop d C s p h alpha L_max fuel y t w = Ok (y', w') ->
  length y' = length y /\
  (forall i, y !! i = Some 1%Z -> y' !! i = Some 1%Z) /\
  ((t < length d)%nat -> (t < length y)%nat -> y' !! t = Some 1%Z) /\
  (binary y -> binary y') /\
  clock w' = clock w /\ ticks w' = ticks w.
Proof.
  induction fuel as [|fuel IH]; intros y t w w' y' H.
  - simpl in H. destruct (t <? length d)%nat eqn:Et; [discriminate|].
    apply Nat.ltb_ge in Et. injection H as <- <-.
    repeat split; auto; lia.
  - simpl in H. destruct (t <? length d)%nat eqn:Et.
    2:{ apply Nat.ltb_ge in Et. injection H as <- <-.
        repeat split; auto; lia. }
    apply bind_Ok_inv in H as (cands & w1 & Hc & H).
    apply lift_Ok_inv in Hc as [Hc ->].
    assert (Hstep : forall t2 w2,
      construction_loop d C s p h alpha L_max fuel (<[t:=1%Z]> y) t2 w2
        = Ok (y', w') ->
      length y' = length y /\
      (forall i, y !! i = Some 1%Z -> y' !! i = Some 1%Z) /\
      ((t < length d)%nat -> (t < length y)%nat -> y' !! t = Some 1%Z) /\
      (binary y -> binary y') /\
      clock w' = clock w2 /\ ticks w' = ticks w2).
    { intros t2 w2 H2.
      apply IH in H2 as (Hlen & Hmono & _ & Hbin & Hclk).
      rewrite length_insert in Hlen.
      repeat split; try tauto.
      - intros i Hi. apply Hmono.
        destruct (decide (i = t)) as [->|Hne].
        + apply list_lookup_insert_eq. eapply lookup_lt_Some, Hi.
        + rewrite list_lookup_insert_ne by auto. exact Hi.
      - intros _ Hty. apply Hmono, list_lookup_insert_eq, Hty.
      - intros Hy. apply Hbin, binary_insert_1, Hy. }
    destruct cands as [|[L0 c0] rest].
    + apply Hstep in H. exact H.
    + apply bind_Ok_inv in H as (Lc & w2 & Hr & H).
      apply random_choice_inv in Hr as (_ & Hclk & Htk).
      apply Hstep in H. rewrite Hclk, Htk in H. exact H.
Qed.

(** On a well-formed instance and for [alpha >= 0] the loop ends and
    raises nothing. *)
Lemma construction_loop_Ok (alpha : Q) (L_max : Z) (fuel : nat) :
  wf_instance d C s p h -> 0 <= alpha ->
  forall (y : list Z) (t : nat) (w : world),
  (length d - t <= fuel)%nat ->
  exists y' w', construction_loop d C s p h alpha L_max fuel y t w
                = Ok (y', w').
Proof.
  intros Hwf Ha.
  induction fuel as [|fuel IH]; intros y t w Hfuel.
  - simpl. destruct (t <? length d)%nat eqn:Et.
    + apply Nat.ltb_lt in Et. lia.
    + unfold ret. eauto.
  - simpl. destruct (t <? length d)%nat eqn:Et; [|unfold ret; eauto].
    apply Nat.ltb_lt in Et.
    destruct (candidates_loop_Ok t (Z.to_nat L_max) 1 [] Hwf Et
                ltac:(lia)) as (cands & Hc).
    rewrite (bind_Ok _ _ w w cands (lift_Ok _ _ w Hc)).
    destruct cands as [|[L0 c0] rest].
    + apply IH. lia.
    + destruct (random_choice_Ok
                  (build_RCL (rcl_threshold alpha c0 (map snd rest))
                     ((L0, c0) :: rest)) w
                  (build_RCL_nonempty alpha L0 c0 rest Ha))
        as (Lc & HLc & Hr).
      rewrite (bind_Ok _ _ _ _ _ Hr).
      apply IH.
      apply build_RCL_In in HLc as (c & HIn & _).
      destruct (candidates_loop_lengths _ _ _ _ _ Hc _ HIn) as [[]|HL].
      simpl in HL. lia.
Qed.

Lemma greedy_randomized_construction_sets (alpha : Q) (L_max : Z)
    (w w' : world) (y : list Z) :
  greedy_randomized_construction d C s p h alpha L_max w = Ok (y, w') ->
  length y = length d /\ binary y /\
  ((0 < length d)%nat -> y !! 0%nat = Some 1%Z) /\
  clock w' = clock w /\ ticks w' = ticks w.
Proof.
  unfold greedy_randomized_construction. intros H.
  apply construction_loop_sets in H as (Hlen & _ & H0 & Hbin & Hclk).
  rewrite length_replicate in Hlen, H0.
  repeat split; try tauto.
  apply Hbin. unfold binary. apply Forall_replicate. auto.
Qed.

Lemma greedy_randomized_construction_Ok (alpha : Q) (L_max : Z)
    (w : world) :
  wf_instance d C s p h -> 0 <= alpha ->
  exists y w', greedy_randomized_construction d C s p h alpha L_max w
               = Ok (y, w').
Proof.
  intros Hwf Ha. unfold greedy_randomized_construction.
  apply construction_loop_Ok; auto. lia.
Qed.

End Constructor.

(** For a negative [alpha] the threshold lies below the cheapest lot, the
    restricted list is empty and [random.choice] raises: the parameter
    ranges over [alpha >= 0]. *)
Example negative_alpha_raises :
  greedy_randomized_construction ScenarioA.d ScenarioA.C ScenarioA.s
    ScenarioA.p ScenarioA.h (-1) 10 coarse_world = Raise IndexError.
Proof. vm_compute. reflexivity. Qed.

(** ** Local search *)

Lemma flips_of_In (v y : list Z) : flip_variant v y -> In v (flips_of y).
Proof.
  induction 1 as [|a b v y Hab _ IH]; simpl; [auto|].
  apply in_or_app. destruct Hab as [->| ->]; [left|right];
    apply in_map, IH.
Qed.

Lemma flips_of_length (y : list Z) :
  length (flips_of y) = (2 ^ length y)%nat.
Proof.
  induction y as [|b y IH]; [reflexivity|].
  cbn [flips_of length]. rewrite length_app, !length_map, IH.
  rewrite Nat.pow_succ_r'. lia.
Qed.

Lemma flip_variant_refl (y : list Z) : flip_variant y y.
Proof. apply Forall2_same_length_lookup_2; [reflexivity|]. intros; simplify_eq; auto. Qed.

Lemma flip_variant_length (v y : list Z) :
  flip_variant v y -> length v = length y.
Proof. apply Forall2_length. Qed.

Lemma flip_variant_binary (v y : list Z) :
  flip_variant v y -> binary y -> binary v.
Proof.
  unfold binary. induction 1 as [|a b v y Hab _ IH]; intros Hy; [constructor|].
  apply Forall_cons in Hy as [Hb Hy]. constructor; [|apply IH, Hy].
  destruct Hab as [->| ->]; destruct Hb as [->| ->]; auto.
Qed.

Lemma lxor_1_1 (b : Z) : Z.lxor (Z.lxor b 1) 1 = b.
Proof. rewrite Z.lxor_assoc. simpl. apply Z.lxor_0_r. Qed.

Lemma flip_Ok (y : list Z) (t : nat) :
  (t < length y)%nat ->
  exists yt, y !! t = Some yt /\ flip y t = Ok (<[t := Z.lxor yt 1]> y).
Proof.
  intros Ht. unfold flip.
  destruct (index_lt y t Ht) as (yt & Hyt & ->). simpl. eauto.
Qed.

(** Flipping the same entry twice restores the vector. *)
Lemma flip_flip (y : list Z) (t : nat) (yt : Z) :
  y !! t = Some yt ->
  flip (<[t := Z.lxor yt 1]> y) t = Ok y.
Proof.
  intros Hyt. unfold flip.
  rewrite (index_lookup _ t (Z.lxor yt 1))
    by (apply list_lookup_insert_eq; eapply lookup_lt_Some, Hyt).
  simpl. rewrite list_insert_insert_eq, lxor_1_1, list_insert_id; auto.
Qed.

Lemma flip_variant_insert (v y0 : list Z) (t : nat) (vt : Z) :
  flip_variant v y0 -> v !! t = Some vt ->
  flip_variant (<[t := Z.lxor vt 1]> v) y0.
Proof.
  intros Hv Hvt. unfold flip_variant in *.
  destruct (Forall2_lookup_l _ _ _ _ _ Hv Hvt) as (b & Hb & Hrel).
  rewrite <- (list_insert_id y0 t b Hb).
  apply Forall2_insert; [exact Hv|].
  destruct Hrel as [->| ->]; [right; reflexivity | left; apply lxor_1_1].
Qed.

Lemma filter_length_lt {A} (f g : A -> bool) (l : list A) (x : A) :
  (forall a, f a = true -> g a = true) ->
  In x l -> f x = false -> g x = true ->
  (length (List.filter f l) < length (List.filter g l))%nat.
Proof.
  intros Hfg. 
  assert (Hle : forall l, (length (List.filter f l) <= length (List.filter g l))%nat).
  { clear -Hfg. induction l as [|a l IH]; simpl; [lia|].
    destruct (f a) eqn:Ef.
    - rewrite (Hfg a Ef). simpl. lia.
    - destruct (g a); simpl; lia. }
  induction l as [|a l IH]; intros HIn Hf Hg; simpl; [destruct HIn|].
  destruct HIn as [->|HIn].
  - rewrite Hf, Hg. simpl. specialize (Hle l). lia.
  - specialize (IH HIn Hf Hg). destruct (f a) eqn:Ef.
    + rewrite (Hfg a Ef). simpl. lia.
    + destruct (g a); simpl; lia.
Qed.

Lemma deadline_reached_Ok (time_limit : option Q) (start_time : Q)
    (w : world) :
  exists b w', deadline_reached time_limit start_time w = Ok (b, w') /\
               world_le w w'.
Proof.
  destruct time_limit as [limit|]; simpl.
  - unfold bind, time_time, ret. simpl. do 2 eexists. split; [reflexivity|].
    split; simpl; [reflexivity | lia].
  - unfold ret. do 2 eexists. split; [reflexivity | apply world_le_refl].
Qed.

Section LocalSearch.

Variables (d C s p h : list Q).
Hypothesis Hlen : same_length d C s p h.

Lemma decode_cost (y : list Z) :
  length y = length d ->
  decode_solution y d C s p h BIGM PENALTY = Ok (decode_spec y d C s p h).
Proof. intros Hy. apply decode_solution_spec; assumption. Qed.

Lemma improving_count_lt (y0 v : list Z) (c c' : Q) :
  flip_variant v y0 -> c' = cost_of v d C s p h -> c' < c ->
  (improving_count d C s p h y0 c' < improving_count d C s p h y0 c)%nat.
Proof.
  intros Hv -> Hlt. unfold improving_count.
  apply filter_length_lt with (x := v).
  - intros a Ha. apply Qltb_true in Ha. apply Qltb_true. lra.
  - apply flips_of_In, Hv.
  - apply Qltb_false. lra.
  - apply Qltb_true, Hlt.
Qed.

Lemma improving_count_le (y0 : list Z) (c : Q) :
  (improving_count d C s p h y0 c <= 2 ^ length y0)%nat.
Proof.
  unfold improving_count. rewrite <- flips_of_length.
  apply filter_length_le.
Qed.

(** One sweep over the periods: it raises nothing; if it reports an
    improvement the new vector decodes to the new, strictly lower cost, and
    otherwise the vector and the cost are the ones it started with. *)
Lemma sweep_loop_spec (time_limit : option Q) (start_time : Q)
    (y0 : list Z) (n : nat) :
  forall (t : nat) (y : list Z) (best_cost : Q) (w : world),
  length y0 = length d -> flip_variant y y0 ->
  (t + n <= length d)%nat ->
  exists y' c' improved w',
    sweep_loop d C s p h time_limit start_time n t y best_cost w
      = Ok ((y', c', improved), w') /\
    world_le w w' /\ flip_variant y' y0 /\
    (if improved : bool
     then c' < best_cost /\ c' = cost_of y' d C s p h
     else y' = y /\ c' = best_cost).
Proof.
  induction n as [|n IH]; intros t y best w Hy0 Hv Ht; simpl.
  - unfold ret. exists y, best, false, w.
    splits; auto using world_le_refl.
  - destruct (deadline_reached_Ok time_limit start_time w)
      as (stop & w1 & Hdl & Hw1).
    rewrite (bind_Ok _ _ _ _ _ Hdl).
    destruct stop.
    { unfold ret. exists y, best, false, w1. splits; auto. }
    pose proof (flip_variant_length _ _ Hv) as Hylen.
    destruct (flip_Ok y t ltac:(lia)) as (yt & Hyt & Hflip).
    rewrite (bind_Ok _ _ _ _ _ (lift_Ok _ _ w1 Hflip)).
    pose proof (flip_variant_insert _ _ _ _ Hv Hyt) as Hv1.
    rewrite (bind_Ok _ _ _ _ _
               (lift_Ok _ _ w1 (decode_cost (<[t:=Z.lxor yt 1]> y)
                  ltac:(rewrite length_insert; lia)))).
    fold (cost_of (<[t:=Z.lxor yt 1]> y) d C s p h).
    destruct (Qltb _ best) eqn:Elt.
    + unfold ret. do 4 eexists. split; [reflexivity|].
      apply Qltb_true in Elt. splits; auto.
    + rewrite (bind_Ok _ _ _ _ _ (lift_Ok _ _ w1 (flip_flip y t yt Hyt))).
      destruct (IH (S t) y best w1 Hy0 Hv ltac:(lia))
        as (y' & c' & imp & w' & Hrun & Hw' & Hv' & Hres).
      exists y', c', imp, w'. rewrite Hrun.
      splits; eauto using world_le_trans.
Qed.

(** The loop [while improved] ends within the fuel that the count of
    cheaper vectors allows, never returns a higher cost than it was given,
    and keeps the cost equal to the decoded cost of the vector. *)
Lemma search_loop_spec (time_limit : option Q) (start_time : Q)
    (y0 : list Z) (fuel : nat) :
  forall (y : list Z) (best_cost : Q) (w : world),
  length y0 = length d -> flip_variant y y0 ->
  (improving_count d C s p h y0 best_cost < fuel)%nat ->
  exists y' c' w',
    search_loop d C s p h time_limit start_time fuel y best_cost w
      = Ok ((y', c'), w') /\
    world_le w w' /\ flip_variant y' y0 /\ c' <= best_cost /\
    (best_cost = cost_of y d C s p h -> c' = cost_of y' d C s p h).
Proof.
  induction fuel as [|fuel IH]; intros y best w Hy0 Hv Hfuel; [lia|].
  simpl.
  destruct (deadline_reached_Ok time_limit start_time w)
    as (stop & w1 & Hdl & Hw1).
  rewrite (bind_Ok _ _ _ _ _ Hdl).
  destruct stop.
  { unfold ret. exists y, best, w1. splits; auto. lra. }
  destruct (sweep_loop_spec time_limit start_time y0 (length d) 0 y best w1
              Hy0 Hv ltac:(lia))
    as (y1 & c1 & imp & w2 & Hsw & Hw2 & Hv1 & Hres).
  rewrite (bind_Ok _ _ _ _ _ Hsw).
  destruct imp.
  - destruct Hres as [Hlt Hc1].
    destruct (IH y1 c1 w2 Hy0 Hv1) as (y' & c' & w' & Hrun & Hw' & Hv' & Hle & Hc').
    { pose proof (improving_count_lt y0 y1 best c1 Hv1 Hc1 Hlt). lia. }
    exists y', c', w'. rewrite Hrun.
    splits; eauto using world_le_trans. lra.
  - destruct Hres as [-> ->]. unfold ret. exists y, best, w2.
    splits; eauto using world_le_trans. lra.
Qed.

(** The local search returns; the cost it returns is the decoded cost of
    the vector it returns and is not above the decoded cost of the vector
    it was given. *)
Lemma local_search_spec (y : list Z) (time_limit start_time : option Q)
    (w : world) :
  length y = length d ->
  exists y' c' w',
    local_search y d C s p h time_limit start_time w = Ok ((y', c'), w') /\
    world_le w w' /\ flip_variant y' y /\
    c' = cost_of y' d C s p h /\ c' <= cost_of y d C s p h.
Proof.
  intros Hy. unfold local_search.
  rewrite (bind_Ok _ _ _ _ _ (lift_Ok _ _ w (decode_cost y Hy))).
  fold (cost_of y d C s p h).
  assert (Hst : exists t0 w1,
    match start_time with Some t0 => ret t0 | None => time_time end w
      = Ok (t0, w1) /\ world_le w w1).
  { destruct start_time as [t0|].
    - exists t0, w. split; [reflexivity | apply world_le_refl].
    - unfold time_time. do 2 eexists. split; [reflexivity|].
      split; simpl; [reflexivity | lia]. }
  destruct Hst as (t0 & w1 & Hst & Hw1).
  rewrite (bind_Ok _ _ _ _ _ Hst).
  destruct (search_loop_spec time_limit t0 y (S (2 ^ length d)) y
              (cost_of y d C s p h) w1 Hy (flip_variant_refl y))
    as (y' & c' & w' & Hrun & Hw' & Hv' & Hle & Hc').
  { pose proof (improving_count_le y (cost_of y d C s p h)).
    rewrite Hy in H. lia. }
  exists y', c', w'. rewrite Hrun.
  splits; eauto using world_le_trans.
Qed.

End LocalSearch.

(** ** The driver *)

Lemma stamped_le (clk : nat -> Q) (start : Q) (lo hi : nat) (l : list Q) :
  stamped clk start lo hi l -> (lo <= hi)%nat.
Proof.
  revert lo. induction l as [|tm l IH]; intros lo H; simpl in H; [exact H|].
  destruct H as (k & Hk & _ & H). apply IH in H. lia.
Qed.

Lemma stamped_weaken (clk : nat -> Q) (start : Q) (lo lo' hi : nat)
    (l : list Q) :
  (lo <= lo')%nat -> stamped clk start lo' hi l -> stamped clk start lo hi l.
Proof.
  intros Hlo. destruct l as [|tm l]; simpl.
  - lia.
  - intros (k & Hk & Htm & H). exists k. split; [lia | auto].
Qed.

Lemma descending_le (c0 : Q) (l : list Q) (c' : Q) :
  descending c0 l c' -> c' <= c0.
Proof.
  revert c0. induction l as [|c l IH]; intros c0 H; simpl in H.
  - subst. lra.
  - destruct H as [Hlt H]. apply IH in H. lra.
Qed.

Section Driver.

Variables (d C s p h : list Q) (alpha : Q) (L_max : Z).
Variables (time_limit : option Q) (start_time : Q).
Hypothesis Hwf : wf_instance d C s p h.
Hypothesis Halpha : 0 <= alpha.

(** The loop of the driver: it raises nothing; the best vector keeps the
    length of the instance and its decoded cost is the best cost; the log
    is extended by samples of strictly decreasing cost, stamped with
    successive clock readings, that end at the best cost. *)
Lemma grasp_loop_spec (n : nat) :
  forall (best_y : list Z) (best_cost : Q) (log : list sample) (w : world),
  length best_y = length d -> binary best_y ->
  best_cost = cost_of best_y d C s p h ->
  exists best_y' best_cost' ext w',
    grasp_loop d C s p h alpha L_max time_limit start_time n
      best_y best_cost log w
      = Ok ((best_y', best_cost', log ++ ext), w') /\
    world_le w w' /\
    length best_y' = length d /\ binary best_y' /\
    best_cost' = cost_of best_y' d C s p h /\
    descending best_cost (map snd ext) best_cost' /\
    stamped (clock w) start_time (ticks w) (ticks w') (map fst ext).
Proof.
  destruct Hwf as (Hlen & Hd & HC).
  induction n as [|n IH]; intros best_y best_cost log w Hby Hbin Hbc.
  - simpl. unfold ret. exists best_y, best_cost, [], w.
    rewrite app_nil_r. splits; simpl; auto using world_le_refl.
  - simpl.
    destruct (deadline_reached_Ok time_limit start_time w)
      as (stop & w1 & Hdl & Hw1).
    rewrite (bind_Ok _ _ _ _ _ Hdl).
    destruct stop.
    { unfold ret. exists best_y, best_cost, [], w1.
      rewrite app_nil_r. splits; simpl; auto. apply Hw1. }
    destruct (greedy_randomized_construction_Ok d C s p h alpha
                (Z.min L_max (Z.of_nat (length d))) w1 Hwf Halpha)
      as (yc & w2 & Hgc).
    rewrite (bind_Ok _ _ _ _ _ Hgc).
    apply greedy_randomized_construction_sets in Hgc
      as (Hyc & Hycbin & _ & Hclk2 & Htk2).
    assert (Hw2 : world_le w w2).
    { destruct Hw1 as [E1 L1]. split; [congruence | lia]. }
    rewrite (bind_Ok _ _ _ _ _
               (lift_Ok _ _ w2 (decode_solution_spec yc d C s p h Hlen Hyc))).
    (* a continuation shared by the two branches that keep the best *)
    assert (Hkeep : forall w3, world_le w w3 ->
      exists best_y' best_cost' ext w',
        grasp_loop d C s p h alpha L_max time_limit start_time n
          best_y best_cost log w3
          = Ok ((best_y', best_cost', log ++ ext), w') /\
        world_le w w' /\
        length best_y' = length d /\ binary best_y' /\
        best_cost' = cost_of best_y' d C s p h /\
        descending best_cost (map snd ext) best_cost' /\
        stamped (clock w) start_time (ticks w) (ticks w') (map fst ext)).
    { intros w3 Hw3.
      destruct (IH best_y best_cost log w3 Hby Hbin Hbc)
        as (by' & bc' & ext & w' & Hrun & Hw' & Hl' & Hb' & Hc' & Hdesc & Hst).
      exists by', bc', ext, w'. splits; eauto using world_le_trans.
      destruct Hw3 as [E3 L3]. rewrite E3 in Hst.
      eapply stamped_weaken; [exact L3 | exact Hst]. }
    destruct (Qle_bool (BIGM / 2) (snd (decode_spec yc d C s p h))).
    { apply Hkeep, Hw2. }
    destruct (local_search_spec d C s p h Hlen yc time_limit
                (Some start_time) w2 Hyc)
      as (y' & c' & w3 & Hls & Hw3 & Hv' & Hc' & _).
    rewrite (bind_Ok _ _ _ _ _ Hls).
    assert (Hw3' : world_le w w3) by eauto using world_le_trans.
    destruct (Qltb c' best_cost) eqn:Elt.
    2:{ apply Hkeep, Hw3'. }
    apply Qltb_true in Elt.
    unfold bind at 1, time_time at 1.
    set (w4 := World (clock w3) (S (ticks w3)) (rand w3) (draws w3)
                 (reseed w3)).
    destruct (IH y' c' (log ++ [(clock w3 (ticks w3) - start_time, c')]) w4)
      as (by' & bc' & ext & w' & Hrun & Hw' & Hl' & Hb' & Hbc' & Hdesc & Hst).
    { rewrite (flip_variant_length _ _ Hv'). exact Hyc. }
    { eapply flip_variant_binary; eauto. }
    { exact Hc'. }
    exists by', bc', ((clock w3 (ticks w3) - start_time, c') :: ext), w'.
    rewrite Hrun, <- app_assoc. simpl.
    destruct Hw3' as [E3 L3]. destruct Hw' as [E4 L4]. simpl in *.
    splits; auto.
    + split; simpl; [congruence | lia].
    + exists (ticks w3). pose proof (stamped_le _ _ _ _ _ Hst).
      splits; [lia | lia | congruence | rewrite <- E3; exact Hst].
Qed.

End Driver.

Section DriverRun.

Variables (d C s p h : list Q) (alpha : Q).
Hypothesis Hwf : wf_instance d C s p h.
Hypothesis Halpha : 0 <= alpha.

(** The driver as a whole: it returns; the log opens with the sample of
    the all-ones vector; the plan returned is the decoded plan of the
    best vector and the best cost is its cost. *)
Lemma grasp_spec (max_iter L_max : Z) (seed : option Z)
    (time_limit : option Q) (w : world) :
  let ones := replicate (length d) 1%Z in
  let start := clock w (ticks w) in
  exists best_y X Is best_cost ext w',
    grasp d C s p h max_iter alpha L_max seed time_limit w
      = Ok ((best_y, X, Is, best_cost,
             (clock w (S (ticks w)) - start + (1 # 1000000),
              cost_of ones d C s p h) :: ext), w') /\
    clock w' = clock w /\
    length best_y = length d /\ binary best_y /\
    decode_spec best_y d C s p h = (X, Is, best_cost) /\
    descending (cost_of ones d C s p h) (map snd ext) best_cost /\
    stamped (clock w) start (S (S (ticks w))) (ticks w') (map fst ext).
Proof.
  intros ones start. pose proof Hwf as (Hlen & _ & _).
  unfold grasp.
  set (ws := match seed with
             | Some z => World (clock w) (ticks w) (reseed w z) O (reseed w)
             | None => w
             end).
  assert (Hseed :
    match seed with Some z => random_seed z | None => ret tt end w
      = Ok (tt, ws)) by (subst ws; destruct seed; reflexivity).
  assert (Hclk : clock ws = clock w) by (subst ws; destruct seed; reflexivity).
  assert (Htk : ticks ws = ticks w) by (subst ws; destruct seed; reflexivity).
  rewrite (bind_Ok _ _ _ _ _ Hseed).
  unfold bind at 1, time_time at 1.
  set (w1 := World (clock ws) (S (ticks ws)) (rand ws) (draws ws) (reseed ws)).
  assert (Hones : length ones = length d) by apply length_replicate.
  rewrite (bind_Ok _ _ _ _ _
             (lift_Ok _ _ w1 (decode_solution_spec ones d C s p h Hlen Hones))).
  unfold bind at 1, time_time at 1.
  set (w2 := World (clock w1) (S (ticks w1)) (rand w1) (draws w1) (reseed w1)).
  fold (cost_of ones d C s p h).
  destruct (grasp_loop_spec d C s p h alpha L_max time_limit
              (clock ws (ticks ws)) Hwf Halpha (Z.to_nat max_iter) ones
              (cost_of ones d C s p h)
              [(clock w1 (ticks w1) - clock ws (ticks ws) + (1 # 1000000),
                cost_of ones d C s p h)] w2 Hones)
    as (by' & bc' & ext & w' & Hrun & Hw' & Hl' & Hb' & Hbc' & Hdesc & Hst).
  { unfold binary. apply Forall_replicate. auto. }
  { reflexivity. }
  rewrite (bind_Ok _ _ _ _ _ Hrun).
  rewrite (bind_Ok _ _ _ _ _
             (lift_Ok _ _ w' (decode_solution_spec by' d C s p h Hlen Hl'))).
  unfold cost_of in Hbc'.
  destruct (decode_spec by' d C s p h) as [[X Is] c] eqn:Edec.
  simpl in Hbc'. subst c. unfold ret.
  exists by', X, Is, bc', ext, w'.
  destruct Hw' as [E' L']. simpl in *.
  rewrite Hclk, Htk in *.
  splits; auto.
Qed.

End DriverRun.

(** ** Consequences used by the stated properties *)

Lemma inventory_loop_shortage (X d : list Q) (n t : nat) (I : list Q)
    (inv v : Q) :
  inventory_loop X d n t I inv = Ok (inl v) -> v < - (1 # 1000000).
Proof.
  revert t I inv. induction n as [|n IH]; intros t I inv H; simpl in H.
  - discriminate.
  - apply res_bind_Ok_inv in H as (Xt & _ & H).
    apply res_bind_Ok_inv in H as (dt & _ & H).
    destruct (Qltb _ _) eqn:E.
    + injection H as <-. apply Qltb_true, E.
    + eapply IH, H.
Qed.

(** A result without a plan carries a score above [BIGM]; no assumption
    on the lengths is needed. *)
Lemma decode_solution_penalized (y : list Z) (d C s p h : list Q) (c : Q) :
  decode_solution y d C s p h BIGM PENALTY = Ok (None, None, c) ->
  BIGM + 1 < c.
Proof.
  unfold decode_solution. intros H.
  apply res_bind_Ok_inv in H as ([X R] & _ & H).
  destruct (Qltb _ R) eqn:ER.
  - injection H as <-. apply Qltb_true in ER. unfold BIGM, PENALTY. lra.
  - apply res_bind_Ok_inv in H as ([v|Is] & Hfw & H).
    + injection H as <-. apply inventory_loop_shortage in Hfw.
      rewrite Qabs_neg by lra. unfold BIGM, PENALTY. lra.
    + apply res_bind_Ok_inv in H as (cost & _ & H). discriminate.
Qed.





Lemma random_randint_Ok (a b : Z) (w : world) :
  (a <= b)%Z -> exists z w', random_randint a b w = Ok (z, w').
Proof.
  intros Hab. unfold random_randint.
  destruct (b <? a)%Z eqn:E; [apply Z.ltb_lt in E; lia | eauto].
Qed.

Section Runner.

Variables (d C s p h : list Q) (alpha : Q).
Hypothesis Hwf : wf_instance d C s p h.
Hypothesis Halpha : 0 <= alpha.


End Runner.

(** ** Sums, production and inventories of the decoded plan *)

Lemma total_nonneg (l : list Q) : Forall (Qle 0) l -> 0 <= total l.
Proof.
  induction 1 as [|x l Hx _ IH]; simpl; lra.
Qed.







Lemma fold_left_Qplus_total (l : list Q) (acc : Q) :
  fold_left Qplus l acc == acc + total l.
Proof.
  revert acc. induction l as [|x l IH]; intros acc; simpl; [lra|].
  rewrite IH. lra.
Qed.

Lemma py_sum_total (l : list Q) : py_sum l == total l.
Proof. unfold py_sum. rewrite fold_left_Qplus_total. lra. Qed.




(** ** Rounding to binary64 *)

Lemma pow2_pos (k : Z) : 0 < pow2 k.
Proof. apply Qpower_0_lt. reflexivity. Qed.

Lemma pow2_plus (a b : Z) : pow2 (a + b) == pow2 a * pow2 b.
Proof. apply Qpower_plus. discriminate. Qed.

Lemma pow2_minus (a b : Z) : pow2 (a - b) == pow2 a / pow2 b.
Proof. apply Qpower_minus. discriminate. Qed.

Lemma pow2_le (a b : Z) : (a <= b)%Z -> pow2 a <= pow2 b.
Proof. intros H. apply Qpower_le_compat_l; [exact H|discriminate]. Qed.

Lemma pow2_lt (a b : Z) : (a < b)%Z -> pow2 a < pow2 b.
Proof. intros H. apply Qpower_lt_compat_l; [exact H|reflexivity]. Qed.

Lemma pow2_inject (n : Z) : (0 <= n)%Z -> pow2 n == inject_Z (2 ^ n).
Proof. intros H. unfold pow2. rewrite (Zpower_Qpower 2 n H). reflexivity. Qed.

Lemma pow2_le_inv (a b : Z) : pow2 a < pow2 (b + 1) -> (a <= b)%Z.
Proof.
  intros H. destruct (Z_le_gt_dec a b) as [Hle|Hgt]; [exact Hle|].
  assert (pow2 (b + 1) <= pow2 a) by (apply pow2_le; lia).
  exfalso. apply (Qlt_irrefl (pow2 a)). eapply Qlt_le_trans; eassumption.
Qed.

(** ** The binary exponent *)

Lemma ilog2_spec (x : Q) :
  0 < x -> pow2 (ilog2 x) <= x /\ x < pow2 (ilog2 x + 1).
Proof.
  intros Hx. destruct x as [n dn]. unfold Qlt in Hx. simpl in Hx.
  assert (Hn : (0 < n)%Z) by lia.
  pose proof (Z.log2_spec n Hn) as [Hn1 Hn2].
  pose proof (Z.log2_spec (Zpos dn) ltac:(lia)) as [Hd1 Hd2].
  pose proof (Z.log2_nonneg n) as Ha.
  pose proof (Z.log2_nonneg (Zpos dn)) as Hb.
  set (a := Z.log2 n) in *. set (b := Z.log2 (Zpos dn)) in *.
  assert (Hx_eq : n # dn == inject_Z n / inject_Z (Zpos dn)).
  { rewrite Qmake_Qdiv. reflexivity. }
  assert (HD : 0 < inject_Z (Zpos dn)) by (unfold Qlt; simpl; lia).
  assert (Hlo : pow2 (a - b - 1) <= n # dn).
  { rewrite Hx_eq. apply Qle_shift_div_l; [exact HD|].
    apply Qle_trans with (pow2 (a - b - 1) * pow2 (b + 1)).
    - apply Qmult_le_l; [apply pow2_pos|].
      rewrite (pow2_inject (b + 1)) by lia. rewrite <- Zle_Qle. lia.
    - rewrite <- pow2_plus. replace (a - b - 1 + (b + 1))%Z with a by lia.
      rewrite (pow2_inject a) by lia. rewrite <- Zle_Qle. lia. }
  assert (Hhi : n # dn < pow2 (a - b + 1)).
  { rewrite Hx_eq. apply Qlt_shift_div_r; [exact HD|].
    apply Qlt_le_trans with (pow2 (a + 1)).
    - rewrite (pow2_inject (a + 1)) by lia. rewrite <- Zlt_Qlt. lia.
    - replace (a + 1)%Z with (a - b + 1 + b)%Z by lia. rewrite pow2_plus.
      apply Qmult_le_l; [apply pow2_pos|].
      rewrite (pow2_inject b) by lia. rewrite <- Zle_Qle. lia. }
  unfold ilog2. simpl Qnum. simpl Qden. fold a b.
  destruct (Qle_bool (pow2 (a - b)) (n # dn)) eqn:E.
  - apply Qle_bool_iff in E. split; [exact E|exact Hhi].
  - split; [exact Hlo|].
    replace (a - b - 1 + 1)%Z with (a - b)%Z by lia.
    apply Qnot_le_lt. intros H. apply Qle_bool_iff in H. congruence.
Qed.

Lemma ilog2_unique (x : Q) (e : Z) :
  pow2 e <= x -> x < pow2 (e + 1) -> ilog2 x = e.
Proof.
  intros H1 H2.
  assert (Hx : 0 < x) by (eapply Qlt_le_trans; [apply (pow2_pos e)|exact H1]).
  destruct (ilog2_spec x Hx) as [H3 H4].
  assert (ilog2 x <= e)%Z.
  { apply pow2_le_inv. eapply Qle_lt_trans; eassumption. }
  assert (e <= ilog2 x)%Z.
  { apply pow2_le_inv. eapply Qle_lt_trans; eassumption. }
  lia.
Qed.

Lemma ilog2_le (x y : Q) : 0 < x -> x <= y -> (ilog2 x <= ilog2 y)%Z.
Proof.
  intros Hx Hxy.
  assert (Hy : 0 < y) by (eapply Qlt_le_trans; eassumption).
  destruct (ilog2_spec x Hx) as [H1 _]. destruct (ilog2_spec y Hy) as [_ H2].
  apply pow2_le_inv. eapply Qle_lt_trans; [|exact H2].
  eapply Qle_trans; eassumption.
Qed.

Lemma ilog2_comp (x y : Q) : 0 < x -> x == y -> ilog2 x = ilog2 y.
Proof.
  intros Hx E. destruct (ilog2_spec x Hx) as [H1 H2].
  symmetry. apply ilog2_unique; rewrite <- E; assumption.
Qed.

Lemma ulp_exp_le (x y : Q) : 0 < x -> x <= y -> (ulp_exp x <= ulp_exp y)%Z.
Proof. intros Hx Hxy. pose proof (ilog2_le x y Hx Hxy). unfold ulp_exp. lia. Qed.

(** ** Rounding to an integer *)

Lemma round_even_bounds (x : Q) :
  (Qfloor x <= round_even x <= Qfloor x + 1)%Z.
Proof.
  unfold round_even. destruct (Qcompare _ _); [destruct (Z.even _)| |]; lia.
Qed.

Lemma round_even_Z (z : Z) : round_even (inject_Z z) = z.
Proof.
  unfold round_even. rewrite Qfloor_Z.
  assert (E : Qcompare (inject_Z z - inject_Z z) (1 # 2) = Lt).
  { rewrite <- Qlt_alt. lra. }
  rewrite E. reflexivity.
Qed.

Lemma round_even_comp (x y : Q) : x == y -> round_even x = round_even y.
Proof.
  intros E. unfold round_even. rewrite (Qfloor_comp x y E).
  assert (E2 : Qcompare (x - inject_Z (Qfloor y)) (1 # 2)
               = Qcompare (y - inject_Z (Qfloor y)) (1 # 2)).
  { apply Qcompare_comp; [rewrite E|]; reflexivity. }
  rewrite E2. reflexivity.
Qed.

Lemma round_even_le_Z (x : Q) (N : Z) : x <= inject_Z N -> (round_even x <= N)%Z.
Proof.
  intros H. pose proof (round_even_bounds x) as [_ Hb].
  pose proof (Qfloor_resp_le _ _ H) as Hf. rewrite Qfloor_Z in Hf.
  destruct (Z.eq_dec (Qfloor x) N) as [E|NE]; [|lia].
  assert (Ex : x == inject_Z N).
  { apply Qle_antisym; [exact H|]. rewrite <- E. apply Qfloor_le. }
  rewrite (round_even_comp _ _ Ex), round_even_Z. lia.
Qed.

Lemma round_even_ge_Z (x : Q) (N : Z) : inject_Z N <= x -> (N <= round_even x)%Z.
Proof.
  intros H. pose proof (round_even_bounds x) as [Hb _].
  pose proof (Qfloor_resp_le _ _ H) as Hf. rewrite Qfloor_Z in Hf. lia.
Qed.

Lemma round_even_mono (x y : Q) : x <= y -> (round_even x <= round_even y)%Z.
Proof.
  intros H. pose proof (Qfloor_resp_le _ _ H) as Hf.
  pose proof (round_even_bounds x) as [_ Hx].
  pose proof (round_even_bounds y) as [Hy _].
  destruct (Z.eq_dec (Qfloor x) (Qfloor y)) as [E|NE]; [|lia].
  unfold round_even. rewrite <- E.
  destruct (Qcompare (x - inject_Z (Qfloor x)) (1 # 2)) eqn:Ex;
    destruct (Qcompare (y - inject_Z (Qfloor x)) (1 # 2)) eqn:Ey;
    try (destruct (Z.even (Qfloor x))); try lia; exfalso;
    try (apply Qeq_alt in Ex); try (apply Qeq_alt in Ey);
    try (rewrite <- Qlt_alt in Ex); try (rewrite <- Qlt_alt in Ey);
    try (rewrite <- Qgt_alt in Ex); try (rewrite <- Qgt_alt in Ey); lra.
Qed.

(** ** The rounded value *)

Lemma b64_pos_grid (x : Q) (N : Z) :
  0 < x ->
  (x <= inject_Z N * pow2 (ulp_exp x) ->
   b64_pos x <= inject_Z N * pow2 (ulp_exp x)) /\
  (inject_Z N * pow2 (ulp_exp x) <= x ->
   inject_Z N * pow2 (ulp_exp x) <= b64_pos x).
Proof.
  intros Hx. unfold b64_pos. set (k := ulp_exp x).
  pose proof (pow2_pos k) as Hk. split; intros H; rewrite Qred_correct.
  - apply Qmult_le_compat_r; [|apply Qlt_le_weak, Hk].
    rewrite <- Zle_Qle. apply round_even_le_Z.
    apply Qle_shift_div_r; assumption.
  - apply Qmult_le_compat_r; [|apply Qlt_le_weak, Hk].
    rewrite <- Zle_Qle. apply round_even_ge_Z.
    apply Qle_shift_div_l; assumption.
Qed.

Lemma b64_pos_nonneg (x : Q) : 0 < x -> 0 <= b64_pos x.
Proof.
  intros Hx. destruct (b64_pos_grid x 0 Hx) as [_ H].
  rewrite Qmult_0_l in H. apply H. apply Qlt_le_weak, Hx.
Qed.

Lemma b64_pos_mono (x y : Q) : 0 < x -> x <= y -> b64_pos x <= b64_pos y.
Proof.
  intros Hx Hxy.
  assert (Hy : 0 < y) by (eapply Qlt_le_trans; eassumption).
  pose proof (ulp_exp_le x y Hx Hxy) as Hk.
  destruct (Z.eq_dec (ulp_exp x) (ulp_exp y)) as [E|NE].
  - unfold b64_pos. rewrite !Qred_correct, E.
    apply Qmult_le_compat_r; [|apply Qlt_le_weak, pow2_pos].
    rewrite <- Zle_Qle. apply round_even_mono.
    apply Qmult_le_compat_r; [exact Hxy|].
    apply Qinv_le_0_compat, Qlt_le_weak, pow2_pos.
  - (* the binades differ: the power of two at the bottom of the binade
       of [y] lies on both grids, between [x] and [y] *)
    assert (Hlt : (ulp_exp x < ulp_exp y)%Z) by lia.
    assert (Hey : ulp_exp y = (ilog2 y - 52)%Z) by (unfold ulp_exp in *; lia).
    assert (Hex : (ilog2 x < ilog2 y)%Z) by (unfold ulp_exp in *; lia).
    destruct (ilog2_spec x Hx) as [_ Hx2].
    destruct (ilog2_spec y Hy) as [Hy1 _].
    set (g := pow2 (ilog2 y)).
    assert (Hxg : x <= g).
    { apply Qlt_le_weak. eapply Qlt_le_trans; [exact Hx2|].
      apply pow2_le. lia. }
    assert (Hgx : g == inject_Z (2 ^ (ilog2 y - ulp_exp x)) * pow2 (ulp_exp x)).
    { rewrite <- pow2_inject by lia. rewrite <- pow2_plus.
      unfold g. f_equiv. lia. }
    assert (Hgy : g == inject_Z (2 ^ 52) * pow2 (ulp_exp y)).
    { rewrite <- (pow2_inject 52) by lia. rewrite <- pow2_plus.
      unfold g. f_equiv. lia. }
    apply Qle_trans with g.
    + rewrite Hgx. apply b64_pos_grid; [exact Hx|]. rewrite <- Hgx. exact Hxg.
    + rewrite Hgy. apply b64_pos_grid; [exact Hy|]. rewrite <- Hgy. exact Hy1.
Qed.

Lemma Qnum_pos (x : Q) : 0 < x <-> exists p, Qnum x = Zpos p.
Proof.
  destruct x as [[|n|n] dn]; unfold Qlt; simpl; split.
  - lia.
  - intros [p Hp]. discriminate.
  - intros _. eauto.
  - lia.
  - lia.
  - intros [p Hp]. discriminate.
Qed.

Lemma b64_of_pos (x : Q) : 0 < x -> b64 x = b64_pos x.
Proof. intros H. apply Qnum_pos in H as [p Hp]. unfold b64. rewrite Hp. reflexivity. Qed.

Lemma b64_of_neg (x : Q) : x < 0 -> b64 x = - b64_pos (- x).
Proof.
  destruct x as [[|n|n] dn]; unfold Qlt; simpl; intros H; try lia. reflexivity.
Qed.

Lemma b64_of_zero (x : Q) : x == 0 -> b64 x = 0.
Proof.
  destruct x as [[|n|n] dn]; unfold Qeq; simpl; intros H; try lia. reflexivity.
Qed.

Lemma b64_nonneg (x : Q) : 0 <= x -> 0 <= b64 x.
Proof.
  intros H. destruct (Qlt_le_dec 0 x) as [Hp|Hz].
  - rewrite b64_of_pos by exact Hp. apply b64_pos_nonneg, Hp.
  - rewrite b64_of_zero by (apply Qle_antisym; assumption). apply Qle_refl.
Qed.

Lemma b64_nonpos (x : Q) : x <= 0 -> b64 x <= 0.
Proof.
  intros H. destruct (Qlt_le_dec x 0) as [Hn|Hz].
  - rewrite b64_of_neg by exact Hn.
    assert (0 <= b64_pos (- x)) by (apply b64_pos_nonneg; lra). lra.
  - rewrite b64_of_zero by (apply Qle_antisym; assumption). apply Qle_refl.
Qed.

(** Rounding is monotone. *)
Lemma b64_le (x y : Q) : x <= y -> b64 x <= b64 y.
Proof.
  intros H. destruct (Qlt_le_dec 0 x) as [Hx|Hx].
  - assert (Hy : 0 < y) by lra.
    rewrite !b64_of_pos by assumption. apply b64_pos_mono; assumption.
  - destruct (Qlt_le_dec 0 y) as [Hy|Hy].
    + apply Qle_trans with 0; [apply b64_nonpos, Hx|].
      apply b64_nonneg. lra.
    + destruct (Qlt_le_dec y 0) as [Hy'|Hy'].
      * assert (Hx' : x < 0) by lra.
        rewrite !b64_of_neg by assumption.
        assert (b64_pos (- y) <= b64_pos (- x)) by (apply b64_pos_mono; lra).
        lra.
      * rewrite (b64_of_zero y) by (apply Qle_antisym; assumption).
        apply b64_nonpos, Hx.
Qed.

Lemma b64_comp (x y : Q) : x == y -> b64 x == b64 y.
Proof. intros E. apply Qle_antisym; apply b64_le; rewrite E; apply Qle_refl. Qed.

(** A binary64 number is left as it is. *)
Lemma b64_pos_exact (x : Q) (n k : Z) :
  0 < x -> (n <= 2 ^ 53)%Z -> (-1074 <= k)%Z ->
  x == inject_Z n * pow2 k -> b64_pos x == x.
Proof.
  intros Hx Hn Hk E.
  assert (Hn0 : (0 < n)%Z).
  { destruct (Z_lt_le_dec 0 n) as [H|H]; [exact H|exfalso].
    assert (inject_Z n <= 0) by (rewrite Zle_Qle in H; exact H).
    pose proof (pow2_pos k). nra. }
  (* [x] lies on the grid of its own binade *)
  assert (Hgrid : exists N, x == inject_Z N * pow2 (ulp_exp x)).
  { destruct (Z.eq_dec n (2 ^ 53)%Z) as [E53|NE53].
    - assert (Ex : x == pow2 (53 + k)).
      { rewrite E, E53, <- (pow2_inject 53) by lia. rewrite <- pow2_plus.
        reflexivity. }
      assert (Hl : ilog2 x = (53 + k)%Z).
      { apply ilog2_unique; rewrite Ex; [apply Qle_refl|].
        apply pow2_lt. lia. }
      exists (2 ^ 52)%Z. unfold ulp_exp. rewrite Hl.
      replace (Z.max (53 + k - 52) (-1074)) with (k + 1)%Z by lia.
      rewrite Ex, <- (pow2_inject 52) by lia. rewrite <- pow2_plus.
      f_equiv. lia.
    - assert (Hl : (ilog2 x <= 52 + k)%Z).
      { apply pow2_le_inv. destruct (ilog2_spec x Hx) as [H1 _].
        eapply Qle_lt_trans; [exact H1|]. rewrite E.
        replace (52 + k + 1)%Z with (53 + k)%Z by lia. rewrite pow2_plus.
        apply Qmult_lt_compat_r; [apply pow2_pos|].
        rewrite (pow2_inject 53) by lia. rewrite <- Zlt_Qlt. lia. }
      exists (n * 2 ^ (k - ulp_exp x))%Z.
      assert (Hu : (ulp_exp x <= k)%Z) by (unfold ulp_exp; lia).
      rewrite inject_Z_mult, <- pow2_inject by lia.
      rewrite <- Qmult_assoc, <- pow2_plus.
      replace (k - ulp_exp x + ulp_exp x)%Z with k by lia. exact E. }
  destruct Hgrid as [N HN].
  destruct (b64_pos_grid x N Hx) as [H1 H2].
  apply Qle_antisym.
  - rewrite HN at 2. apply H1. rewrite <- HN. apply Qle_refl.
  - rewrite HN at 1. apply H2. rewrite <- HN. apply Qle_refl.
Qed.

Lemma b64_exact (x : Q) : representable x -> b64 x == x.
Proof.
  intros (n & k & Hn & Hk & E).
  destruct (Qlt_le_dec 0 x) as [Hp|Hp].
  - rewrite b64_of_pos by exact Hp.
    apply (b64_pos_exact x n k Hp); [lia|exact Hk|exact E].
  - destruct (Qlt_le_dec x 0) as [Hn'|Hz].
    + rewrite b64_of_neg by exact Hn'.
      rewrite (b64_pos_exact (- x) (- n) k); [lra|lra|lia|exact Hk|].
      rewrite E, inject_Z_opp. ring.
    + rewrite b64_of_zero by (apply Qle_antisym; assumption).
      apply Qle_antisym; assumption.
Qed.

(** An integer of at most 53 bits is a binary64 number. *)
Lemma representable_Z (z : Z) : (Z.abs z <= 2 ^ 53)%Z -> representable (inject_Z z).
Proof.
  intros H. exists z, 0%Z. split; [exact H|]. split; [lia|].
  unfold pow2. rewrite Qpower_0_r. ring.
Qed.

Lemma Qred_inject_Z (z : Z) : Qred (inject_Z z) = inject_Z z.
Proof.
  unfold Qred, inject_Z.
  pose proof (Z.ggcd_gcd z 1) as Hg.
  pose proof (Z.ggcd_correct_divisors z 1) as Hd.
  destruct (Z.ggcd z 1) as [g [n' d']]. simpl in Hg.
  rewrite Z.gcd_1_r in Hg. subst g. destruct Hd as [Hz Hd].
  f_equal; [lia|]. replace d' with 1%Z by lia. reflexivity.
Qed.

Lemma b64_red (x : Q) : Qred (b64 x) = b64 x.
Proof.
  unfold b64. destruct (Qnum x).
  - reflexivity.
  - unfold b64_pos. apply Qred_complete, Qred_correct.
  - unfold b64_pos. rewrite Qred_opp. f_equal.
    apply Qred_complete, Qred_correct.
Qed.

Lemma b64_Z (z : Z) : (Z.abs z <= 2 ^ 53)%Z -> b64 (inject_Z z) = inject_Z z.
Proof.
  intros H. transitivity (Qred (inject_Z z)); [|apply Qred_inject_Z].
  rewrite <- b64_red. apply Qred_complete, b64_exact, representable_Z, H.
Qed.

(** What rounding returns is a binary64 number. *)
Lemma b64_pos_representable (x : Q) : 0 < x -> representable (b64_pos x).
Proof.
  intros Hx. exists (round_even (x / pow2 (ulp_exp x))), (ulp_exp x).
  pose proof (pow2_pos (ulp_exp x)) as Hk.
  destruct (ilog2_spec x Hx) as [_ H2].
  split; [|split].
  - assert (0 <= round_even (x / pow2 (ulp_exp x)))%Z.
    { apply round_even_ge_Z. apply Qle_shift_div_l; [exact Hk|].
      change (inject_Z 0) with 0. rewrite Qmult_0_l. lra. }
    assert (round_even (x / pow2 (ulp_exp x)) <= 2 ^ 53)%Z.
    { apply round_even_le_Z. apply Qle_shift_div_r; [exact Hk|].
      rewrite <- (pow2_inject 53) by lia. rewrite <- pow2_plus.
      apply Qlt_le_weak. eapply Qlt_le_trans; [exact H2|].
      apply pow2_le. unfold ulp_exp. lia. }
    lia.
  - unfold ulp_exp. lia.
  - unfold b64_pos. apply Qred_correct.
Qed.

Lemma representable_opp (x : Q) : representable x -> representable (- x).
Proof.
  intros (n & k & Hn & Hk & E). exists (- n)%Z, k.
  split; [lia|]. split; [exact Hk|]. rewrite E, inject_Z_opp. ring.
Qed.

Lemma b64_representable (x : Q) : representable (b64 x).
Proof.
  destruct (Qlt_le_dec 0 x) as [Hp|Hp].
  - rewrite b64_of_pos by exact Hp. apply b64_pos_representable, Hp.
  - destruct (Qlt_le_dec x 0) as [Hn|Hz].
    + rewrite b64_of_neg by exact Hn.
      apply representable_opp, b64_pos_representable. lra.
    + rewrite b64_of_zero by (apply Qle_antisym; assumption).
      apply (representable_Z 0). simpl. lia.
Qed.

Lemma b64_idem (x : Q) : b64 (b64 x) == b64 x.
Proof. apply b64_exact, b64_representable. Qed.

(** Rounding does not cross a binary64 number. *)
Lemma b64_ge (a x : Q) : representable a -> a <= x -> a <= b64 x.
Proof. intros Ha H. rewrite <- (b64_exact a Ha). apply b64_le, H. Qed.

Lemma b64_le_repr (a x : Q) : representable a -> x <= a -> b64 x <= a.
Proof. intros Ha H. rewrite <- (b64_exact a Ha). apply b64_le, H. Qed.


(** * The stated properties *)

(** ** The decoder *)




(** C2, as the code has it: a feasible score that does not exceed [BIGM]
    is strictly below every infeasible score, since every infeasible score
    is above [BIGM]. *)
Theorem feasible_below_infeasible_up_to_BIGM
    (y1 y2 : list Z) (d C s p h X Is : list Q) (c1 c2 : Q) :
  decode_solution y1 d C s p h BIGM PENALTY = Ok (Some X, Some Is, c1) ->
  decode_solution y2 d C s p h BIGM PENALTY = Ok (None, None, c2) ->
  c1 <= BIGM ->
  c1 < c2.
Proof.
  intros _ H2 Hc1. apply decode_solution_penalized in H2. lra.
Qed.

Lemma feasible_below_infeasible_witness : 45 < 1000000010000000.
Proof.
  apply (feasible_below_infeasible_up_to_BIGM [1; 1; 1]%Z [0; 1; 1]%Z
           ScenarioA.d ScenarioA.C ScenarioA.s ScenarioA.p ScenarioA.h
           [10; 10; 10] [0; 0; 0] 45 1000000010000000).
  - vm_compute. reflexivity.
  - vm_compute. reflexivity.
  - vm_compute. discriminate.
Defined.

(** C2 as stated fails: with a setup cost of 2e15 the vector [[1]] is
    feasible at cost 2e15 + 1, the vector [[0]] is infeasible at score
    1e15 + 1e6, and the feasible score is the larger one. *)
Lemma feasible_cost_above_penalized_score :
  decode_solution [1]%Z HugeSetup.d HugeSetup.C HugeSetup.s HugeSetup.p
    HugeSetup.h BIGM PENALTY
  = Ok (Some [1], Some [0], 2000000000000001) /\
  decode_solution [0]%Z HugeSetup.d HugeSetup.C HugeSetup.s HugeSetup.p
    HugeSetup.h BIGM PENALTY
  = Ok (None, None, 1000000001000000) /\
  ~ 2000000000000001 < 1000000001000000.
Proof.
  split; [|split].
  - vm_compute. reflexivity.
  - vm_compute. reflexivity.
  - vm_compute. discriminate.
Qed.

(** C3: on an instance with arrays of equal length and a binary setup
    vector of that length, [decode_solution] returns what the
    specification describes, [decode_spec].  With [X] and [R] the
    production and the residual of the backward pass: if [R] exceeds 1e-6
    the result is the score [BIGM + R * PENALTY] without a plan; else, if
    the running inventory drops below -1e-6, the result is
    [BIGM + |inv| * PENALTY] without a plan, [inv] being the first such
    inventory; otherwise it is [(X, I, cost)] with the cost summed over
    the periods. *)
Theorem decode_solution_refines_spec (y : list Z) (d C s p h : list Q) :
  same_length d C s p h -> length y = length d -> binary y ->
  decode_solution y d C s p h BIGM PENALTY = Ok (decode_spec y d C s p h) /\
  let X := fst (backward_spec y d C) in
  let R := snd (backward_spec y d C) in
  let Is := inventory_spec 0 X d in
  (1 # 1000000 < R ->
   decode_solution y d C s p h BIGM PENALTY
   = Ok (None, None, BIGM + R * PENALTY)) /\
  (R <= 1 # 1000000 ->
   forall inv, List.find shortage Is = Some inv ->
   decode_solution y d C s p h BIGM PENALTY
   = Ok (None, None, BIGM + Qabs inv * PENALTY)) /\
  (R <= 1 # 1000000 -> List.find shortage Is = None ->
   decode_solution y d C s p h BIGM PENALTY
   = Ok (Some X, Some Is, plan_cost y s p h X Is)).
Proof.
  intros Hlen Hy _.
  rewrite decode_solution_spec by assumption.
  split; [reflexivity|]. unfold decode_spec.
  destruct (backward_spec y d C) as [X R]. simpl. splits.
  - intros HR. apply Qltb_true in HR. rewrite HR. reflexivity.
  - intros HR inv Hf. apply Qltb_false in HR. rewrite HR, Hf. reflexivity.
  - intros HR Hf. apply Qltb_false in HR. rewrite HR, Hf. reflexivity.
Qed.

Lemma decode_solution_refines_witness :
  decode_solution [1; 0; 0]%Z ScenarioA.d ScenarioA.C ScenarioA.s
    ScenarioA.p ScenarioA.h BIGM PENALTY
  = Ok (Some [30; 0; 0], Some [20; 10; 0], 65).
Proof.
  refine (proj1 (decode_solution_refines_spec [1; 0; 0]%Z
                   ScenarioA.d ScenarioA.C ScenarioA.s ScenarioA.p
                   ScenarioA.h _ _ _)).
  - repeat split.
  - reflexivity.
  - unfold binary.
    repeat (apply List.Forall_cons; [auto|]). apply List.Forall_nil.
Defined.

(** ** Local search *)

(** C4: the cost returned by [local_search] is never above the decoded
    cost of the vector it starts from, whatever the time limit, the start
    time and the readings of the clock, so also when a deadline check
    stops the search between two flips. *)
Theorem local_search_never_worse (y : list Z) (d C s p h : list Q)
    (time_limit start_time : option Q) (w : world) :
  same_length d C s p h -> length y = length d ->
  exists y' c' w' dec,
    local_search y d C s p h time_limit start_time w = Ok ((y', c'), w') /\
    decode_solution y d C s p h BIGM PENALTY = Ok dec /\
    c' <= snd dec.
Proof.
  intros Hlen Hy.
  destruct (local_search_spec d C s p h Hlen y time_limit start_time w Hy)
    as (y' & c' & w' & Hrun & _ & _ & _ & Hle).
  exists y', c', w', (decode_spec y d C s p h).
  splits; [exact Hrun | apply decode_solution_spec; assumption | exact Hle].
Qed.

Lemma local_search_never_worse_witness :
  exists y' c' w' dec,
    local_search [1; 1; 1]%Z CostlySetup.d CostlySetup.C CostlySetup.s
      CostlySetup.p CostlySetup.h (Some 6) None ticking_world
    = Ok ((y', c'), w') /\
    decode_solution [1; 1; 1]%Z CostlySetup.d CostlySetup.C CostlySetup.s
      CostlySetup.p CostlySetup.h BIGM PENALTY = Ok dec /\
    c' <= snd dec.
Proof.
  apply (local_search_never_worse [1; 1; 1]%Z CostlySetup.d CostlySetup.C
           CostlySetup.s CostlySetup.p CostlySetup.h (Some 6) None
           ticking_world).
  - repeat split.
  - reflexivity.
Defined.

(** C9: the pair [(y', cost')] returned by [local_search] satisfies
    [decode_solution y' = (_, _, cost')], and [grasp] returns a [best_cost]
    and a plan [X], [I] that are exactly what [decode_solution] gives for
    the returned [best_y]. *)
Theorem returned_cost_is_decoded_cost (y : list Z) (d C s p h : list Q)
    (alpha : Q) (max_iter L_max : Z) (seed : option Z)
    (time_limit start_time : option Q) (w : world) :
  wf_instance d C s p h -> 0 <= alpha -> length y = length d ->
  (exists y' cost' w' X Is,
     local_search y d C s p h time_limit start_time w
       = Ok ((y', cost'), w') /\
     decode_solution y' d C s p h BIGM PENALTY = Ok (X, Is, cost')) /\
  (exists best_y X Is best_cost log w',
     grasp d C s p h max_iter alpha L_max seed time_limit w
       = Ok ((best_y, X, Is, best_cost, log), w') /\
     decode_solution best_y d C s p h BIGM PENALTY
       = Ok (X, Is, best_cost)).
Proof.
  intros Hwf Ha Hy. pose proof Hwf as (Hlen & _). split.
  - destruct (local_search_spec d C s p h Hlen y time_limit start_time w Hy)
      as (y' & c' & w' & Hrun & _ & Hv & Hc & _).
    pose proof (flip_variant_length _ _ Hv) as Hy'.
    unfold cost_of in Hc.
    destruct (decode_spec y' d C s p h) as [[X Is] c] eqn:Edec.
    simpl in Hc. subst c.
    exists y', c', w', X, Is. split; [exact Hrun|].
    rewrite decode_solution_spec by (auto; lia). rewrite Edec. reflexivity.
  - destruct (grasp_spec d C s p h alpha Hwf Ha max_iter L_max seed
                time_limit w)
      as (by' & X & Is & bc & ext & w' & Hrun & _ & Hl & _ & Hdec & _).
    do 6 eexists. split; [exact Hrun|].
    rewrite decode_solution_spec by auto. rewrite Hdec. reflexivity.
Qed.

Lemma returned_cost_is_decoded_cost_witness :
  (exists y' cost' w' X Is,
     local_search [1; 1; 1]%Z CostlySetup.d CostlySetup.C CostlySetup.s
       CostlySetup.p CostlySetup.h None None coarse_world
       = Ok ((y', cost'), w') /\
     decode_solution y' CostlySetup.d CostlySetup.C CostlySetup.s
       CostlySetup.p CostlySetup.h BIGM PENALTY = Ok (X, Is, cost')) /\
  (exists best_y X Is best_cost log w',
     grasp CostlySetup.d CostlySetup.C CostlySetup.s CostlySetup.p
       CostlySetup.h 2 (3 # 10) 10 (Some 2025%Z) None coarse_world
       = Ok ((best_y, X, Is, best_cost, log), w') /\
     decode_solution best_y CostlySetup.d CostlySetup.C CostlySetup.s
       CostlySetup.p CostlySetup.h BIGM PENALTY = Ok (X, Is, best_cost)).
Proof.
  apply (returned_cost_is_decoded_cost [1; 1; 1]%Z CostlySetup.d
           CostlySetup.C CostlySetup.s CostlySetup.p CostlySetup.h
           (3 # 10) 2 10 (Some 2025%Z) None None coarse_world).
  - repeat split; repeat constructor; vm_compute; discriminate.
  - vm_compute. discriminate.
  - reflexivity.
Defined.

(** ** The constructor *)




(** C10: on an instance with [T >= 1], for every [alpha] and [L_max],
    whatever [greedy_randomized_construction] returns has a setup in
    period 0, and more generally the loop entered at any cursor [t] leaves
    a setup at [t]; for [alpha >= 0] (the range of the parameter) it does
    return, a vector of length [T]. *)
Theorem construction_sets_first_period (d C s p h : list Q) :
  wf_instance d C s p h -> (0 < length d)%nat ->
  (forall alpha L_max w y w',
     greedy_randomized_construction d C s p h alpha L_max w = Ok (y, w') ->
     y !! 0%nat = Some 1%Z) /\
  (forall alpha L_max w,
     0 <= alpha ->
     exists y w',
       greedy_randomized_construction d C s p h alpha L_max w = Ok (y, w') /\
       y !! 0%nat = Some 1%Z /\ length y = length d) /\
  (forall alpha L_max fuel y t w y' w',
     construction_loop d C s p h alpha L_max fuel y t w = Ok (y', w') ->
     (t < length d)%nat -> length y = length d ->
     y' !! t = Some 1%Z).
Proof.
  intros Hwf HT. splits.
  - intros alpha L_max w y w' H.
    apply greedy_randomized_construction_sets in H as (_ & _ & H0 & _).
    apply H0, HT.
  - intros alpha L_max w Ha.
    destruct (greedy_randomized_construction_Ok d C s p h alpha L_max w
                Hwf Ha) as (y & w' & H).
    exists y, w'. split; [exact H|].
    apply greedy_randomized_construction_sets in H as (Hl & _ & H0 & _).
    split; [apply H0, HT | exact Hl].
  - intros alpha L_max fuel y t w y' w' H Ht Hy.
    apply construction_loop_sets in H as (_ & _ & Hset & _).
    apply Hset; [exact Ht | lia].
Qed.

Lemma construction_sets_first_period_witness :
  exists y w',
    greedy_randomized_construction ScenarioB.d ScenarioB.C ScenarioB.s
      ScenarioB.p ScenarioB.h 1 10 coarse_world = Ok (y, w') /\
    y !! 0%nat = Some 1%Z /\ length y = length ScenarioB.d.
Proof.
  apply (construction_sets_first_period ScenarioB.d ScenarioB.C ScenarioB.s
           ScenarioB.p ScenarioB.h).
  - repeat split; repeat constructor; vm_compute; discriminate.
  - vm_compute. lia.
  - vm_compute. discriminate.
Defined.

(** ** The driver *)






(** ** The convergence log *)




(** * Further properties of the code *)

(** ** The plan that the decoder returns *)

Section Plan.

Variables (y : list Z) (d C s p h : list Q).
Hypothesis Hlen : same_length d C s p h.
Hypothesis Hy : length y = length d.





End Plan.



(** ** The plan against the exact model *)



(** ** Setup vectors of the wrong length *)

Lemma index_take {A} (l : list A) (n t : nat) :
  (t < n)%nat -> index (take n l) t = index l t.
Proof. intros Ht. unfold index. rewrite lookup_take_lt by lia. reflexivity. Qed.

Lemma backward_loop_take (y : list Z) (d C : list Q) (T n : nat) :
  (n <= T)%nat ->
  forall X R,
  backward_loop (take T y) d C n X R = backward_loop y d C n X R.
Proof.
  induction n as [|t IH]; intros Hn X R; [reflexivity|].
  simpl. rewrite index_take by lia.
  destruct (index d t); simpl; try reflexivity.
  destruct (index y t) as [yt| |]; simpl; try reflexivity.
  destruct (yt =? 1)%Z.
  - destruct (index C t); simpl; try reflexivity. apply IH. lia.
  - apply IH. lia.
Qed.

Lemma cost_loop_take (y : list Z) (s p h X I : list Q) (T n : nat) :
  forall t cost, (t + n <= T)%nat ->
  cost_loop (take T y) s p h X I n t cost = cost_loop y s p h X I n t cost.
Proof.
  induction n as [|n IH]; intros t cost Ht; [reflexivity|].
  simpl. rewrite index_take by lia.
  destruct (index s t); simpl; try reflexivity.
  destruct (index y t); simpl; try reflexivity.
  destruct (index p t); simpl; try reflexivity.
  destruct (index X t); simpl; try reflexivity.
  destruct (index h t); simpl; try reflexivity.
  destruct (index I t); simpl; try reflexivity.
  apply IH. lia.
Qed.

(** X5: [decode_solution] reads the setup vector only at the periods of
    the horizon: entries beyond the length of the demand are ignored, and
    a vector shorter than the demand raises [IndexError], whatever the
    rest of the instance. *)
Theorem decode_solution_vector_length
    (y : list Z) (d C s p h : list Q) (bigM penalty : Q) :
  decode_solution (take (length d) y) d C s p h bigM penalty
  = decode_solution y d C s p h bigM penalty /\
  ((length y < length d)%nat ->
   decode_solution y d C s p h bigM penalty = Raise IndexError).
Proof.
  split.
  - unfold decode_solution.
    rewrite backward_loop_take by lia.
    destruct (backward_loop y d C (length d) (replicate (length d) 0) 0)
      as [[X R]| |]; simpl; try reflexivity.
    destruct (Qltb (1 # 1000000) R); [reflexivity|].
    destruct (inventory_loop X d (length d) 0 (replicate (length d) 0) 0)
      as [[v|Is]| |]; simpl; try reflexivity.
    rewrite cost_loop_take by lia. reflexivity.
  - intros Hlt. unfold decode_solution.
    destruct (length d) as [|t] eqn:E; [lia|].
    simpl.
    destruct (index_lt d t ltac:(lia)) as (dt & _ & ->). simpl.
    unfold index. rewrite lookup_ge_None_2 by lia. reflexivity.
Qed.

(** ** Adding setups *)








Lemma decode_solution_vector_length_witness :
  decode_solution [1%Z] ScenarioA.d ScenarioA.C ScenarioA.s ScenarioA.p
    ScenarioA.h BIGM PENALTY = Raise IndexError.
Proof.
  apply (proj2 (decode_solution_vector_length [1%Z] ScenarioA.d ScenarioA.C
                  ScenarioA.s ScenarioA.p ScenarioA.h BIGM PENALTY)).
  simpl. lia.
Defined.

(** ** More on the constructor *)

Lemma random_choice_draws {A} (l : list A) (w w' : world) (a : A) :
  random_choice l w = Ok (a, w') ->
  rand w' = rand w /\ reseed w' = reseed w /\ draws w' = S (draws w).
Proof.
  unfold random_choice.
  destruct (l !! _) as [x|]; try discriminate.
  intros H. injection H as <- <-. simpl. auto.
Qed.

Lemma construction_loop_draws (d C s p h : list Q) (alpha : Q) (L_max : Z)
    (fuel : nat) :
  forall (y : list Z) (t : nat) (w w' : world) (y' : list Z),
  construction_loop d C s p h alpha L_max fuel y t w = Ok (y', w') ->
  rand w' = rand w /\ reseed w' = reseed w /\
  (draws w <= draws w' <= draws w + fuel)%nat.
Proof.
  induction fuel as [|fuel IH]; intros y t w w' y' H; simpl in H.
  - destruct (t <? length d)%nat; [discriminate|].
    injection H as <- <-. splits; auto; lia.
  - destruct (t <? length d)%nat.
    2:{ injection H as <- <-. splits; auto; lia. }
    apply bind_Ok_inv in H as (cands & w1 & Hc & H).
    apply lift_Ok_inv in Hc as [Hc ->].
    destruct cands as [|[L0 c0] rest].
    + apply IH in H as (? & ? & ?). splits; auto; lia.
    + apply bind_Ok_inv in H as (Lc & w2 & Hr & H).
      apply random_choice_draws in Hr as (Hr1 & Hr2 & Hr3).
      apply IH in H as (? & ? & ?). splits; try congruence; lia.
Qed.

(** X7: whatever [greedy_randomized_construction] returns is a vector of
    0/1 entries with one entry per period; the construction never reads
    the clock, and it consumes at most [T] draws of the random source
    (at most one per setup it places). *)
Theorem construction_result_shape (d C s p h : list Q) (alpha : Q)
    (L_max : Z) (w w' : world) (y : list Z) :
  greedy_randomized_construction d C s p h alpha L_max w = Ok (y, w') ->
  length y = length d /\ binary y /\
  clock w' = clock w /\ ticks w' = ticks w /\
  rand w' = rand w /\ reseed w' = reseed w /\
  (draws w <= draws w' <= draws w + length d)%nat.
Proof.
  intros H.
  pose proof (greedy_randomized_construction_sets d C s p h alpha L_max
                w w' y H) as (Hl & Hb & _ & Hc & Ht).
  unfold greedy_randomized_construction in H.
  apply construction_loop_draws in H as (Hr & Hs & Hd).
  splits; auto; lia.
Qed.

Lemma construction_result_shape_witness :
  length [1; 0; 0]%Z = length CostlySetup.d /\ binary [1; 0; 0]%Z /\
  clock (World (clock coarse_world) 0 (rand coarse_world) 1
           (reseed coarse_world)) = clock coarse_world /\
  ticks (World (clock coarse_world) 0 (rand coarse_world) 1
           (reseed coarse_world)) = ticks coarse_world /\
  rand (World (clock coarse_world) 0 (rand coarse_world) 1
          (reseed coarse_world)) = rand coarse_world /\
  reseed (World (clock coarse_world) 0 (rand coarse_world) 1
            (reseed coarse_world)) = reseed coarse_world /\
  (draws coarse_world
   <= draws (World (clock coarse_world) 0 (rand coarse_world) 1
               (reseed coarse_world))
   <= draws coarse_world + length CostlySetup.d)%nat.
Proof.
  apply (construction_result_shape CostlySetup.d CostlySetup.C CostlySetup.s
           CostlySetup.p CostlySetup.h 0 10 coarse_world).
  vm_compute. reflexivity.
Defined.

Lemma construction_loop_forced (d C s p h : list Q) (alpha : Q) (L_max : Z)
    (fuel : nat) :
  (forall t, (t < length d)%nat ->
     candidates_loop d C s p h t (Z.to_nat L_max) 1 [] = Ok []) ->
  forall (y : list Z) (t : nat) (w : world),
  (length d - t <= fuel)%nat -> length y = length d -> (t <= length d)%nat ->
  construction_loop d C s p h alpha L_max fuel y t w
  = Ok (take t y ++ replicate (length d - t) 1%Z, w).
Proof.
  intros Hforced.
  induction fuel as [|fuel IH]; intros y t w Hfuel Hy Ht; simpl.
  - destruct (t <? length d)%nat eqn:Et; [apply Nat.ltb_lt in Et; lia|].
    unfold ret. replace (length d - t)%nat with 0%nat by lia.
    simpl. rewrite app_nil_r, take_ge by lia. reflexivity.
  - destruct (t <? length d)%nat eqn:Et.
    + apply Nat.ltb_lt in Et.
      rewrite (bind_Ok _ _ w w _ (lift_Ok _ _ w (Hforced t Et))).
      rewrite IH by (rewrite ?length_insert; lia).
      f_equal. f_equal.
      replace (length d - t)%nat with (S (length d - (t + 1)))%nat by lia.
      replace (t + 1)%nat with (S t) by lia.
      rewrite (take_S_r (<[t:=1%Z]> y) t 1%Z)
        by (apply list_lookup_insert_eq; lia).
      rewrite take_insert_ge by lia.
      rewrite <- app_assoc. reflexivity.
    + apply Nat.ltb_ge in Et. unfold ret.
      replace (length d - t)%nat with 0%nat by lia.
      simpl. rewrite app_nil_r, take_ge by lia. reflexivity.
Qed.

(** X8: with [L_max <= 0] no lot is ever evaluated: on every instance and
    for every [alpha], [greedy_randomized_construction] returns the
    all-ones vector and leaves the random source untouched. *)
Theorem construction_without_lots_is_all_ones (d C s p h : list Q)
    (alpha : Q) (L_max : Z) (w : world) :
  (L_max <= 0)%Z ->
  greedy_randomized_construction d C s p h alpha L_max w
  = Ok (replicate (length d) 1%Z, w).
Proof.
  intros HL. unfold greedy_randomized_construction.
  rewrite construction_loop_forced;
    rewrite ?length_replicate; try lia.
  - rewrite take_0, Nat.sub_0_r. reflexivity.
  - intros t _. replace (Z.to_nat L_max) with 0%nat by lia. reflexivity.
Qed.

Lemma construction_without_lots_witness :
  greedy_randomized_construction ScenarioA.d ScenarioA.C ScenarioA.s
    ScenarioA.p ScenarioA.h (-1) 0 coarse_world
  = Ok (replicate (length ScenarioA.d) 1%Z, coarse_world).
Proof.
  apply (construction_without_lots_is_all_ones ScenarioA.d ScenarioA.C
           ScenarioA.s ScenarioA.p ScenarioA.h (-1) 0 coarse_world).
  lia.
Defined.

Lemma total_take_ge_head (l : list Q) (x : Q) (L : nat) :
  Forall (Qle 0) l -> (1 <= L)%nat -> x <= total (take L (x :: l)).
Proof.
  intros Hl HL. destruct L as [|L]; [lia|]. simpl.
  assert (0 <= total (take L l)) by (apply total_nonneg, Forall_take, Hl).
  lra.
Qed.

Lemma candidates_loop_no_capacity (d C s p h : list Q) (t : nat)
    (dt Ct : Q) :
  Forall (Qle 0) d -> d !! t = Some dt -> C !! t = Some Ct ->
  Ct + (1 # 1000000) < dt ->
  forall n L acc, (1 <= L)%nat ->
  candidates_loop d C s p h t n L acc = Ok acc.
Proof.
  intros Hd Hdt HCt Hcap.
  induction n as [|n IH]; intros L acc HL; simpl; [reflexivity|].
  destruct (length d <=? t + L - 1)%nat; [reflexivity|].
  rewrite (index_lookup C t Ct HCt). simpl.
  assert (Hdem : dt <= py_sum (slice d t (t + L - 1 + 1))).
  { rewrite py_sum_total. unfold slice.
    rewrite (drop_S d dt t Hdt).
    replace (t + L - 1 + 1 - t)%nat with L by lia.
    apply total_take_ge_head; [apply Forall_drop, Hd | exact HL]. }
  destruct (Qltb (Ct + (1 # 1000000)) (py_sum (slice d t (t + L - 1 + 1))))
    eqn:E.
  - apply IH. lia.
  - apply Qltb_false in E. lra.
Qed.

(** X9: when no period has the capacity to cover even its own demand,
    every lot is discarded at every cursor, so for every [alpha] and
    [L_max] the constructor falls back to a setup in every period: it
    returns the all-ones vector without drawing a random number. *)
Theorem construction_without_capacity_is_all_ones (d C s p h : list Q)
    (alpha : Q) (L_max : Z) (w : world) :
  Forall (Qle 0) d ->
  Forall2 (fun dt Ct => Ct + (1 # 1000000) < dt) d C ->
  greedy_randomized_construction d C s p h alpha L_max w
  = Ok (replicate (length d) 1%Z, w).
Proof.
  intros Hd Hcap. unfold greedy_randomized_construction.
  rewrite construction_loop_forced;
    rewrite ?length_replicate; try lia.
  - rewrite take_0, Nat.sub_0_r. reflexivity.
  - intros t Ht.
    destruct (lookup_lt_is_Some_2 d t Ht) as [dt Hdt].
    destruct (Forall2_lookup_l _ _ _ _ _ Hcap Hdt) as (Ct & HCt & Hlt).
    apply (candidates_loop_no_capacity d C s p h t dt Ct); auto.
Qed.

Lemma construction_without_capacity_witness :
  greedy_randomized_construction ScenarioB.d ScenarioB.C ScenarioB.s
    ScenarioB.p ScenarioB.h (3 # 10) 10 coarse_world
  = Ok (replicate (length ScenarioB.d) 1%Z, coarse_world).
Proof.
  apply (construction_without_capacity_is_all_ones ScenarioB.d ScenarioB.C
           ScenarioB.s ScenarioB.p ScenarioB.h (3 # 10) 10 coarse_world).
  - repeat constructor; vm_compute; discriminate.
  - repeat constructor; vm_compute; reflexivity.
Defined.

Lemma candidates_loop_facts (d C s p h : list Q) (t n : nat) :
  forall (L : nat) (acc cands : list (nat * Q)),
  (1 <= L)%nat ->
  candidates_loop d C s p h t n L acc = Ok cands ->
  exists new,
    cands = acc ++ new /\
    Forall (fun lc : nat * Q =>
              (L <= fst lc < L + n)%nat /\ (t + fst lc <= length d)%nat /\
              exists Ct, C !! t = Some Ct /\
                py_sum (slice d t (t + fst lc)) <= Ct + (1 # 1000000))
      new /\
    StronglySorted lt (map fst new).
Proof.
  induction n as [|n IH]; intros L acc cands HL H; simpl in H.
  - injection H as <-. exists []. rewrite app_nil_r.
    splits; constructor.
  - destruct (length d <=? t + L - 1)%nat eqn:Eend.
    { injection H as <-. exists []. rewrite app_nil_r.
      splits; constructor. }
    apply Nat.leb_gt in Eend.
    apply res_bind_Ok_inv in H as (cap & Hcap & H).
    assert (HCt : C !! t = Some cap).
    { unfold index in Hcap. destruct (C !! t); [congruence | discriminate]. }
    destruct (Qltb _ _) eqn:Elt.
    { destruct (IH (S L) acc cands ltac:(lia) H) as (new & -> & Hall & Hs).
      exists new. splits; auto.
      eapply Forall_impl; [exact Hall|]. simpl.
      intros lc (HLc & Hrest). split; [lia | exact Hrest]. }
    apply Qltb_false in Elt.
    apply res_bind_Ok_inv in H as (sc & _ & H).
    apply res_bind_Ok_inv in H as (pc & _ & H).
    apply res_bind_Ok_inv in H as (hc & _ & H).
    destruct (Qeq_bool _ _); [discriminate|].
    destruct (IH (S L) _ cands ltac:(lia) H) as (new & -> & Hall & Hs).
    eexists ((L, _) :: new). rewrite <- app_assoc. simpl.
    splits; [reflexivity | |].
    + constructor.
      * simpl. splits; try lia. exists cap. split; [exact HCt|].
        replace (t + L)%nat with (t + L - 1 + 1)%nat by lia. lra.
      * eapply Forall_impl; [exact Hall|]. simpl.
        intros lc (HLc & Hrest). split; [lia | exact Hrest].
    + constructor; [exact Hs|].
      apply Forall_map. eapply Forall_impl; [exact Hall|]. simpl.
      intros lc (HLc & _). lia.
Qed.

(** X10: every lot that the constructor keeps as a candidate at a cursor
    [t] has a length between 1 and [L_max], ends within the horizon, and
    covers a demand that the capacity of period [t] can produce (up to
    the tolerance 1e-6); the candidates are listed by strictly increasing
    length, so no length appears twice. *)
Theorem candidate_lots_are_within_horizon_and_capacity
    (d C s p h : list Q) (t : nat) (L_max : Z) (cands : list (nat * Q)) :
  candidates_loop d C s p h t (Z.to_nat L_max) 1 [] = Ok cands ->
  Forall (fun lc : nat * Q =>
            (1 <= fst lc <= Z.to_nat L_max)%nat /\
            (t + fst lc <= length d)%nat /\
            exists Ct, C !! t = Some Ct /\
              py_sum (slice d t (t + fst lc)) <= Ct + (1 # 1000000))
    cands /\
  StronglySorted lt (map fst cands).
Proof.
  intros H.
  destruct (candidates_loop_facts d C s p h t _ 1 [] cands ltac:(lia) H)
    as (new & -> & Hall & Hs).
  simpl. split; [|exact Hs].
  eapply Forall_impl; [exact Hall|]. simpl.
  intros lc (HL & Hrest). split; [lia | exact Hrest].
Qed.

Lemma candidate_lots_witness :
  let cands :=
    [(1%nat, 110000000000 # 10000000001);
     (2%nat, 130000000000 # 20000000001);
     (3%nat, 160000000000 # 30000000001)] in
  Forall (fun lc : nat * Q =>
            (1 <= fst lc <= Z.to_nat 3)%nat /\
            (0 + fst lc <= length CostlySetup.d)%nat /\
            exists Ct, CostlySetup.C !! 0%nat = Some Ct /\
              py_sum (slice CostlySetup.d 0 (0 + fst lc))
              <= Ct + (1 # 1000000))
    cands /\
  StronglySorted lt (map fst cands).
Proof.
  apply (candidate_lots_are_within_horizon_and_capacity CostlySetup.d
           CostlySetup.C CostlySetup.s CostlySetup.p CostlySetup.h 0 3).
  vm_compute. reflexivity.
Defined.

(** ** More on the local search *)

Lemma deadline_reached_None (start_time : Q) (w : world) :
  deadline_reached None start_time w = Ok (false, w).
Proof. reflexivity. Qed.

Section LocalSearchMore.

Variables (d C s p h : list Q).
Hypothesis Hlen : same_length d C s p h.

(** A sweep, with what a sweep without improvement has established when
    there is no time limit: no flip in the range it visited lowers the
    cost. *)
Lemma sweep_loop_outcome (time_limit : option Q) (start_time : Q)
    (y0 : list Z) (n : nat) :
  forall (t : nat) (y : list Z) (best_cost : Q) (w : world),
  length y0 = length d -> flip_variant y y0 ->
  (t + n <= length d)%nat ->
  exists y' c' improved w',
    sweep_loop d C s p h time_limit start_time n t y best_cost w
      = Ok ((y', c', improved), w') /\
    flip_variant y' y0 /\
    (time_limit = None -> w' = w) /\
    (if improved : bool
     then c' < best_cost /\ c' = cost_of y' d C s p h
     else y' = y /\ c' = best_cost /\
          (time_limit = None ->
           forall k yk, (t <= k < t + n)%nat -> y !! k = Some yk ->
             best_cost <= cost_of (<[k := Z.lxor yk 1]> y) d C s p h)).
Proof.
  induction n as [|n IH]; intros t y best w Hy0 Hv Ht; simpl.
  - unfold ret. exists y, best, false, w. splits; auto.
    intros _ k yk Hk. lia.
  - destruct (deadline_reached_Ok time_limit start_time w)
      as (stop & w1 & Hdl & Hw1).
    rewrite (bind_Ok _ _ _ _ _ Hdl).
    assert (Hnone : time_limit = None -> stop = false /\ w1 = w).
    { intros ->. rewrite deadline_reached_None in Hdl.
      injection Hdl as <- <-. auto. }
    destruct stop.
    { unfold ret. exists y, best, false, w1. splits; auto.
      - intros E. apply Hnone, E.
      - intros E. destruct (Hnone E). discriminate. }
    pose proof (flip_variant_length _ _ Hv) as Hylen.
    destruct (flip_Ok y t ltac:(lia)) as (yt & Hyt & Hflip).
    rewrite (bind_Ok _ _ _ _ _ (lift_Ok _ _ w1 Hflip)).
    pose proof (flip_variant_insert _ _ _ _ Hv Hyt) as Hv1.
    rewrite (bind_Ok _ _ _ _ _
               (lift_Ok _ _ w1 (decode_cost d C s p h Hlen
                  (<[t:=Z.lxor yt 1]> y)
                  ltac:(rewrite length_insert; lia)))).
    fold (cost_of (<[t:=Z.lxor yt 1]> y) d C s p h).
    destruct (Qltb _ best) eqn:Elt.
    + unfold ret. do 4 eexists. split; [reflexivity|].
      apply Qltb_true in Elt. splits; auto.
      intros E. apply Hnone, E.
    + rewrite (bind_Ok _ _ _ _ _ (lift_Ok _ _ w1 (flip_flip y t yt Hyt))).
      destruct (IH (S t) y best w1 Hy0 Hv ltac:(lia))
        as (y' & c' & imp & w' & Hrun & Hv' & Hw' & Hres).
      exists y', c', imp, w'. rewrite Hrun. splits; auto.
      * intros E. rewrite (Hw' E). apply Hnone, E.
      * destruct imp; [exact Hres|].
        destruct Hres as (-> & -> & Hopt). splits; auto.
        intros E k yk Hk Hyk.
        destruct (decide (k = t)) as [->|Hne].
        -- rewrite Hyt in Hyk. injection Hyk as <-.
           apply Qltb_false in Elt. exact Elt.
        -- apply (Hopt E); [lia | exact Hyk].
Qed.

(** The loop [while improved]: the vector is the one given unless the
    cost went strictly down, and without a time limit the loop leaves the
    world as it found it and stops at a vector that no single flip
    improves. *)
Lemma search_loop_outcome (time_limit : option Q) (start_time : Q)
    (y0 : list Z) (fuel : nat) :
  forall (y : list Z) (best_cost : Q) (w : world),
  length y0 = length d -> flip_variant y y0 ->
  (improving_count d C s p h y0 best_cost < fuel)%nat ->
  best_cost = cost_of y d C s p h ->
  exists y' c' w',
    search_loop d C s p h time_limit start_time fuel y best_cost w
      = Ok ((y', c'), w') /\
    flip_variant y' y0 /\ c' = cost_of y' d C s p h /\
    ((y' = y /\ c' = best_cost) \/ c' < best_cost) /\
    (time_limit = None ->
     w' = w /\
     forall k yk, (k < length d)%nat -> y' !! k = Some yk ->
       c' <= cost_of (<[k := Z.lxor yk 1]> y') d C s p h).
Proof.
  induction fuel as [|fuel IH]; intros y best w Hy0 Hv Hfuel Hbest; [lia|].
  simpl.
  destruct (deadline_reached_Ok time_limit start_time w)
    as (stop & w1 & Hdl & Hw1).
  rewrite (bind_Ok _ _ _ _ _ Hdl).
  assert (Hnone : time_limit = None -> stop = false /\ w1 = w).
  { intros ->. rewrite deadline_reached_None in Hdl.
    injection Hdl as <- <-. auto. }
  destruct stop.
  { unfold ret. exists y, best, w1. splits; auto.
    intros E. destruct (Hnone E). discriminate. }
  destruct (sweep_loop_outcome time_limit start_time y0 (length d) 0 y best
              w1 Hy0 Hv ltac:(lia))
    as (y1 & c1 & imp & w2 & Hsw & Hv1 & Hw2 & Hres).
  rewrite (bind_Ok _ _ _ _ _ Hsw).
  destruct imp.
  - destruct Hres as [Hlt Hc1].
    destruct (IH y1 c1 w2 Hy0 Hv1) as (y' & c' & w' & Hrun & Hv' & Hc' & Hch & Hopt).
    { pose proof (improving_count_lt d C s p h y0 y1 best c1 Hv1 Hc1 Hlt).
      lia. }
    { exact Hc1. }
    exists y', c', w'. rewrite Hrun. splits; auto.
    + right. destruct Hch as [[_ ->]|Hlt']; lra.
    + intros E. destruct (Hopt E) as [-> Hloc].
      split; [|exact Hloc]. rewrite (Hw2 E). apply Hnone, E.
  - destruct Hres as (-> & -> & Hopt). unfold ret. exists y, best, w2.
    splits; auto.
    intros E. split; [rewrite (Hw2 E); apply Hnone, E|].
    intros k yk Hk Hyk. apply (Hopt E); [lia | exact Hyk].
Qed.

Lemma local_search_outcome (y : list Z) (time_limit start_time : option Q)
    (w : world) :
  length y = length d ->
  exists y' c' w',
    local_search y d C s p h time_limit start_time w = Ok ((y', c'), w') /\
    flip_variant y' y /\ c' = cost_of y' d C s p h /\
    ((y' = y /\ c' = cost_of y d C s p h) \/ c' < cost_of y d C s p h) /\
    (time_limit = None ->
     w' = match start_time with
          | Some _ => w
          | None => World (clock w) (S (ticks w)) (rand w) (draws w)
                      (reseed w)
          end /\
     forall k yk, (k < length d)%nat -> y' !! k = Some yk ->
       c' <= cost_of (<[k := Z.lxor yk 1]> y') d C s p h).
Proof.
  intros Hy. unfold local_search.
  rewrite (bind_Ok _ _ _ _ _ (lift_Ok _ _ w (decode_cost d C s p h Hlen y Hy))).
  fold (cost_of y d C s p h).
  set (w1 := match start_time with
             | Some _ => w
             | None => World (clock w) (S (ticks w)) (rand w) (draws w)
                         (reseed w)
             end).
  assert (Hst : exists t0,
    match start_time with Some t0 => ret t0 | None => time_time end w
      = Ok (t0, w1)).
  { subst w1. destruct start_time as [t0|]; eexists; reflexivity. }
  destruct Hst as (t0 & Hst).
  rewrite (bind_Ok _ _ _ _ _ Hst).
  destruct (search_loop_outcome time_limit t0 y (S (2 ^ length d)) y
              (cost_of y d C s p h) w1 Hy (flip_variant_refl y))
    as (y' & c' & w' & Hrun & Hv' & Hc' & Hch & Hopt).
  { pose proof (improving_count_le d C s p h y (cost_of y d C s p h)).
    rewrite Hy in H. lia. }
  { reflexivity. }
  exists y', c', w'. rewrite Hrun. splits; auto.
Qed.

End LocalSearchMore.

(** X11: without a time limit [local_search] stops at a local optimum of
    the flip neighbourhood: flipping any single period of the vector it
    returns decodes to a cost that is not below the cost it returns.  It
    reads the clock at most once (to set a missing [start_time]) and never
    touches the random source. *)
Theorem local_search_reaches_local_optimum
    (y : list Z) (d C s p h : list Q) (start_time : option Q) (w : world) :
  same_length d C s p h -> length y = length d ->
  exists y' cost',
    local_search y d C s p h None start_time w
    = Ok ((y', cost'),
          match start_time with
          | Some _ => w
          | None => World (clock w) (S (ticks w)) (rand w) (draws w)
                      (reseed w)
          end) /\
    forall t yt, (t < length d)%nat -> y' !! t = Some yt ->
      exists dec,
        decode_solution (<[t := Z.lxor yt 1]> y') d C s p h BIGM PENALTY
        = Ok dec /\
        cost' <= snd dec.
Proof.
  intros Hlen Hy.
  destruct (local_search_outcome d C s p h Hlen y None start_time w Hy)
    as (y' & c' & w' & Hrun & Hv & _ & _ & Hopt).
  destruct (Hopt eq_refl) as [-> Hloc].
  exists y', c'. split; [exact Hrun|].
  intros t yt Ht Hyt.
  exists (decode_spec (<[t:=Z.lxor yt 1]> y') d C s p h).
  split; [|apply (Hloc t yt Ht Hyt)].
  apply decode_solution_spec; [exact Hlen|].
  rewrite length_insert, (flip_variant_length _ _ Hv). exact Hy.
Qed.

Lemma local_search_reaches_local_optimum_witness :
  exists y' cost',
    local_search [1; 1; 1]%Z CostlySetup.d CostlySetup.C CostlySetup.s
      CostlySetup.p CostlySetup.h None (Some 0) coarse_world
    = Ok ((y', cost'), coarse_world) /\
    forall t yt, (t < length CostlySetup.d)%nat -> y' !! t = Some yt ->
      exists dec,
        decode_solution (<[t := Z.lxor yt 1]> y') CostlySetup.d
          CostlySetup.C CostlySetup.s CostlySetup.p CostlySetup.h
          BIGM PENALTY = Ok dec /\
        cost' <= snd dec.
Proof.
  apply (local_search_reaches_local_optimum [1; 1; 1]%Z CostlySetup.d
           CostlySetup.C CostlySetup.s CostlySetup.p CostlySetup.h
           (Some 0) coarse_world).
  - repeat split.
  - reflexivity.
Defined.

(** X12: [local_search] changes the vector only for a strict gain: either
    it returns the vector it was given with its decoded cost, or the cost
    it returns is strictly below the decoded cost of that vector.  The
    vector it returns has the length of the one given and differs from it
    only by flipped low bits, so a 0/1 vector stays a 0/1 vector. *)
Theorem local_search_changes_only_to_improve
    (y : list Z) (d C s p h : list Q) (time_limit start_time : option Q)
    (w : world) :
  same_length d C s p h -> length y = length d ->
  exists y' cost' w' dec,
    local_search y d C s p h time_limit start_time w
    = Ok ((y', cost'), w') /\
    decode_solution y d C s p h BIGM PENALTY = Ok dec /\
    ((y' = y /\ cost' = snd dec) \/ cost' < snd dec) /\
    length y' = length y /\
    flip_variant y' y /\
    (binary y -> binary y').
Proof.
  intros Hlen Hy.
  destruct (local_search_outcome d C s p h Hlen y time_limit start_time w Hy)
    as (y' & c' & w' & Hrun & Hv & _ & Hch & _).
  exists y', c', w', (decode_spec y d C s p h).
  splits; auto.
  - apply decode_solution_spec; assumption.
  - apply flip_variant_length, Hv.
  - apply flip_variant_binary, Hv.
Qed.

Lemma local_search_changes_only_to_improve_witness :
  exists y' cost' w' dec,
    local_search [1; 1; 1]%Z CostlySetup.d CostlySetup.C CostlySetup.s
      CostlySetup.p CostlySetup.h (Some 100) None ticking_world
    = Ok ((y', cost'), w') /\
    decode_solution [1; 1; 1]%Z CostlySetup.d CostlySetup.C CostlySetup.s
      CostlySetup.p CostlySetup.h BIGM PENALTY = Ok dec /\
    ((y' = [1; 1; 1]%Z /\ cost' = snd dec) \/ cost' < snd dec) /\
    length y' = length [1; 1; 1]%Z /\
    flip_variant y' [1; 1; 1]%Z /\
    (binary [1; 1; 1]%Z -> binary y').
Proof.
  apply (local_search_changes_only_to_improve [1; 1; 1]%Z CostlySetup.d
           CostlySetup.C CostlySetup.s CostlySetup.p CostlySetup.h
           (Some 100) None ticking_world).
  - repeat split.
  - reflexivity.
Defined.

(** X13: when the deadline has already passed at the first check
    ([time.time() - start_time >= time_limit]), [local_search] returns the
    vector it was given, untouched, with its decoded cost, after that
    single reading of the clock. *)
Theorem local_search_after_deadline
    (y : list Z) (d C s p h : list Q) (limit t0 : Q) (w : world) :
  same_length d C s p h -> length y = length d ->
  limit <= clock w (ticks w) - t0 ->
  exists dec,
    decode_solution y d C s p h BIGM PENALTY = Ok dec /\
    local_search y d C s p h (Some limit) (Some t0) w
    = Ok ((y, snd dec),
          World (clock w) (S (ticks w)) (rand w) (draws w) (reseed w)).
Proof.
  intros Hlen Hy Hlim.
  exists (decode_spec y d C s p h).
  split; [apply decode_solution_spec; assumption|].
  unfold local_search.
  rewrite (bind_Ok _ _ _ _ _
             (lift_Ok _ _ w (decode_solution_spec y d C s p h Hlen Hy))).
  unfold bind at 1, ret at 1.
  change (search_loop d C s p h (Some limit) t0 (S (2 ^ length d)) y
            (snd (decode_spec y d C s p h)) w)
    with (bind (deadline_reached (Some limit) t0)
            (fun stop =>
               if stop : bool then ret (y, snd (decode_spec y d C s p h))
               else
                 bind (sweep_loop d C s p h (Some limit) t0 (length d) 0 y
                         (snd (decode_spec y d C s p h)))
                   (fun r =>
                      let '(y1, best_cost, improved) := r in
                      if improved : bool
                      then search_loop d C s p h (Some limit) t0
                             (2 ^ length d) y1 best_cost
                      else ret (y1, best_cost))) w).
  unfold bind, deadline_reached, time_time, ret. simpl.
  apply Qle_bool_iff in Hlim. rewrite Hlim. reflexivity.
Qed.

Lemma local_search_after_deadline_witness :
  exists dec,
    decode_solution [1; 1; 1]%Z CostlySetup.d CostlySetup.C CostlySetup.s
      CostlySetup.p CostlySetup.h BIGM PENALTY = Ok dec /\
    local_search [1; 1; 1]%Z CostlySetup.d CostlySetup.C CostlySetup.s
      CostlySetup.p CostlySetup.h (Some 0) (Some 0) coarse_world
    = Ok (([1; 1; 1]%Z, snd dec),
          World (clock coarse_world) (S (ticks coarse_world))
            (rand coarse_world) (draws coarse_world)
            (reseed coarse_world)).
Proof.
  apply (local_search_after_deadline [1; 1; 1]%Z CostlySetup.d CostlySetup.C
           CostlySetup.s CostlySetup.p CostlySetup.h 0 0 coarse_world).
  - repeat split.
  - reflexivity.
  - vm_compute. discriminate.
Defined.

(** ** More on the driver *)

Lemma grasp_loop_log_length (d C s p h : list Q) (alpha : Q) (L_max : Z)
    (time_limit : option Q) (start_time : Q) (n : nat) :
  forall best_y best_cost log w best_y' best_cost' log' w',
  grasp_loop d C s p h alpha L_max time_limit start_time n
    best_y best_cost log w = Ok ((best_y', best_cost', log'), w') ->
  (length log <= length log' <= length log + n)%nat.
Proof.
  induction n as [|n IH]; intros by0 bc0 log w by' bc' log' w' H;
    simpl in H.
  - injection H as <- <- <- <-. lia.
  - apply bind_Ok_inv in H as (stop & w1 & _ & H).
    destruct stop; [injection H as <- <- <- <-; lia|].
    apply bind_Ok_inv in H as (yc & w2 & _ & H).
    apply bind_Ok_inv in H as (dec & w3 & _ & H).
    destruct (Qle_bool _ _).
    { apply IH in H. lia. }
    apply bind_Ok_inv in H as ([y1 c1] & w4 & _ & H).
    destruct (Qltb c1 bc0).
    + apply bind_Ok_inv in H as (now & w5 & _ & H).
      apply IH in H. rewrite length_app in H. simpl in H. lia.
    + apply IH in H. lia.
Qed.

Lemma descending_strict_chain (c0 t0 : Q) (l : list sample) (c' : Q) :
  descending c0 (map snd l) c' ->
  chain (fun a b : sample => snd b < snd a) ((t0, c0) :: l).
Proof.
  revert c0 t0. induction l as [|[tm c] l IH]; intros c0 t0 H; simpl in H.
  - exact I.
  - destruct H as [Hlt H]. cbn [chain]. split; [exact Hlt|].
    apply IH, H.
Qed.

(** X14: with [max_iter <= 0] the loop of the driver is not entered:
    [grasp] returns the all-ones vector with what [decode_solution] gives
    for it and a log of exactly one sample, after two readings of the
    clock, on every instance with arrays of equal length and for every
    [alpha]. *)
Theorem grasp_without_iterations (d C s p h : list Q) (max_iter : Z)
    (alpha : Q) (L_max : Z) (seed : option Z) (time_limit : option Q)
    (w : world) :
  same_length d C s p h -> (max_iter <= 0)%Z ->
  exists X Is cost w',
    decode_solution (replicate (length d) 1%Z) d C s p h BIGM PENALTY
    = Ok (X, Is, cost) /\
    grasp d C s p h max_iter alpha L_max seed time_limit w
    = Ok ((replicate (length d) 1%Z, X, Is, cost,
           [(clock w (S (ticks w)) - clock w (ticks w) + (1 # 1000000),
             cost)]), w') /\
    clock w' = clock w /\ ticks w' = S (S (ticks w)).
Proof.
  intros Hlen Hmax.
  assert (Hones : length (replicate (length d) 1%Z) = length d)
    by apply length_replicate.
  pose proof (decode_solution_spec _ d C s p h Hlen Hones) as Hdec.
  destruct (decode_spec (replicate (length d) 1%Z) d C s p h)
    as [[X Is] cost] eqn:E.
  exists X, Is, cost.
  set (ws := match seed with
             | Some z => World (clock w) (ticks w) (reseed w z) O (reseed w)
             | None => w
             end).
  exists (World (clock ws) (S (S (ticks ws))) (rand ws) (draws ws)
            (reseed ws)).
  assert (Hseed :
    match seed with Some z => random_seed z | None => ret tt end w
      = Ok (tt, ws)) by (subst ws; destruct seed; reflexivity).
  assert (Hclk : clock ws = clock w) by (subst ws; destruct seed; reflexivity).
  assert (Htk : ticks ws = ticks w) by (subst ws; destruct seed; reflexivity).
  splits; [exact Hdec | | simpl; exact Hclk | simpl; congruence].
  unfold grasp.
  rewrite (bind_Ok _ _ _ _ _ Hseed).
  unfold bind at 1, time_time at 1.
  rewrite (bind_Ok _ _ _ _ _ (lift_Ok _ _ _ Hdec)).
  unfold bind at 1, time_time at 1.
  replace (Z.to_nat max_iter) with 0%nat by lia.
  cbn [grasp_loop]. unfold bind at 1, ret at 1.
  rewrite (bind_Ok _ _ _ _ _ (lift_Ok _ _ _ Hdec)).
  unfold ret. simpl. rewrite Hclk, Htk. reflexivity.
Qed.

Lemma grasp_without_iterations_witness :
  exists X Is cost w',
    decode_solution (replicate (length ScenarioA.d) 1%Z) ScenarioA.d
      ScenarioA.C ScenarioA.s ScenarioA.p ScenarioA.h BIGM PENALTY
    = Ok (X, Is, cost) /\
    grasp ScenarioA.d ScenarioA.C ScenarioA.s ScenarioA.p ScenarioA.h
      0 (-1) 10 None None ticking_world
    = Ok ((replicate (length ScenarioA.d) 1%Z, X, Is, cost,
           [(clock ticking_world (S (ticks ticking_world))
             - clock ticking_world (ticks ticking_world) + (1 # 1000000),
             cost)]), w') /\
    clock w' = clock ticking_world /\
    ticks w' = S (S (ticks ticking_world)).
Proof.
  apply (grasp_without_iterations ScenarioA.d ScenarioA.C ScenarioA.s
           ScenarioA.p ScenarioA.h 0 (-1) 10 None None ticking_world).
  - repeat split.
  - lia.
Defined.

Section DriverMore.

Variables (d C s p h : list Q) (alpha : Q).
Hypothesis Hwf : wf_instance d C s p h.
Hypothesis Halpha : 0 <= alpha.


End DriverMore.

(** X15: the log returned by [grasp] has at most one sample per iteration
    after the first one, its costs go strictly down, and the returned
    [best_cost] is never above the decoded cost of the all-ones vector. *)
Theorem convergence_log_is_short_and_strict (d C s p h : list Q)
    (alpha : Q) (max_iter L_max : Z) (seed : option Z)
    (time_limit : option Q) (w : world) :
  wf_instance d C s p h -> 0 <= alpha ->
  exists best_y X Is best_cost log w' dec1,
    grasp d C s p h max_iter alpha L_max seed time_limit w
    = Ok ((best_y, X, Is, best_cost, log), w') /\
    (1 <= length log <= 1 + Z.to_nat max_iter)%nat /\
    chain (fun a b : sample => snd b < snd a) log /\
    decode_solution (replicate (length d) 1%Z) d C s p h BIGM PENALTY
    = Ok dec1 /\
    best_cost <= snd dec1.
Proof.
  intros Hwf Ha. pose proof Hwf as (Hlen & _).
  destruct (grasp_spec d C s p h alpha Hwf Ha max_iter L_max seed
              time_limit w)
    as (by' & X & Is & bc & ext & w' & Hrun & _ & _ & _ & _ & Hdesc & _).
  do 7 eexists.
  splits; [exact Hrun | | | | |].
  - simpl. lia.
  - pose proof Hrun as Hrun'. unfold grasp in Hrun'.
    apply bind_Ok_inv in Hrun' as (u & w1 & _ & H).
    apply bind_Ok_inv in H as (st & w2 & _ & H).
    apply bind_Ok_inv in H as (dec & w3 & _ & H).
    apply bind_Ok_inv in H as (now & w4 & _ & H).
    apply bind_Ok_inv in H as ([[by1 bc1] log1] & w5 & Hloop & H).
    apply grasp_loop_log_length in Hloop.
    apply bind_Ok_inv in H as ([[X1 I1] c1] & w6 & _ & H).
    injection H as _ _ _ _ <- _. simpl in Hloop. lia.
  - eapply descending_strict_chain, Hdesc.
  - apply decode_solution_spec; auto using length_replicate.
  - apply descending_le in Hdesc. exact Hdesc.
Qed.

Lemma convergence_log_is_short_and_strict_witness :
  exists best_y X Is best_cost log w' dec1,
    grasp CostlySetup.d CostlySetup.C CostlySetup.s CostlySetup.p
      CostlySetup.h 3 0 10 (Some 7%Z) (Some 1800) ticking_world
    = Ok ((best_y, X, Is, best_cost, log), w') /\
    (1 <= length log <= 1 + Z.to_nat 3)%nat /\
    chain (fun a b : sample => snd b < snd a) log /\
    decode_solution (replicate (length CostlySetup.d) 1%Z) CostlySetup.d
      CostlySetup.C CostlySetup.s CostlySetup.p CostlySetup.h BIGM PENALTY
    = Ok dec1 /\
    best_cost <= snd dec1.
Proof.
  apply (convergence_log_is_short_and_strict CostlySetup.d CostlySetup.C
           CostlySetup.s CostlySetup.p CostlySetup.h 0 3 10 (Some 7%Z)
           (Some 1800) ticking_world).
  - repeat split; repeat constructor; vm_compute; discriminate.
  - vm_compute. discriminate.
Defined.

Lemma decode_spec_plan_lengths (y : list Z) (d C s p h X Is : list Q)
    (c : Q) :
  length y = length d -> length C = length d ->
  decode_spec y d C s p h = (Some X, Some Is, c) ->
  length X = length d /\ length Is = length d.
Proof.
  intros Hy HC E. unfold decode_spec in E.
  pose proof (backward_spec_length y d C Hy HC) as HX.
  destruct (backward_spec y d C) as [X0 R0]. simpl in HX.
  destruct (Qltb _ R0); [discriminate|].
  destruct (List.find _ _); [discriminate|].
  injection E as E1 E2 _. subst X Is.
  split; [exact HX | apply inventory_spec_length, HX].
Qed.

(** X16: what [grasp] returns as [best_y] is a 0/1 vector with one entry
    per period, and a best cost below [BIGM / 2] (the runner's test of
    feasibility) always comes with a plan: [X] and [I] are then not
    [None]. *)
Theorem feasible_flag_comes_with_a_plan (d C s p h : list Q)
    (alpha : Q) (max_iter L_max : Z) (seed : option Z)
    (time_limit : option Q) (w : world) :
  wf_instance d C s p h -> 0 <= alpha ->
  exists best_y X Is best_cost log w',
    grasp d C s p h max_iter alpha L_max seed time_limit w
    = Ok ((best_y, X, Is, best_cost, log), w') /\
    length best_y = length d /\ binary best_y /\
    (best_cost < BIGM / 2 ->
     exists Xl Il, X = Some Xl /\ Is = Some Il /\
                   length Xl = length d /\ length Il = length d).
Proof.
  intros Hwf Ha. pose proof Hwf as (Hlen & _).
  destruct (grasp_spec d C s p h alpha Hwf Ha max_iter L_max seed
              time_limit w)
    as (by' & X & Is & bc & ext & w' & Hrun & _ & Hl & Hb & Hdec & _).
  do 6 eexists. splits; [exact Hrun | exact Hl | exact Hb |].
  intros Hflag. rewrite BIGM_half in Hflag.
  destruct (decode_spec_cases by' d C s p h)
    as [(c & E & Hc)|(Xl & Il & E)]; rewrite E in Hdec.
  - injection Hdec as _ _ <-. unfold BIGM in Hc. lra.
  - injection Hdec as <- <- _. exists Xl, Il.
    destruct (decode_spec_plan_lengths by' d C s p h Xl Il _ Hl
                (proj1 Hlen) E) as [HXl HIl].
    splits; auto.
Qed.

Lemma feasible_flag_comes_with_a_plan_witness :
  exists best_y X Is best_cost log w',
    grasp ScenarioA.d ScenarioA.C ScenarioA.s ScenarioA.p ScenarioA.h
      2 (3 # 10) 10 None None coarse_world
    = Ok ((best_y, X, Is, best_cost, log), w') /\
    length best_y = length ScenarioA.d /\ binary best_y /\
    (best_cost < BIGM / 2 ->
     exists Xl Il, X = Some Xl /\ Is = Some Il /\
                   length Xl = length ScenarioA.d /\
                   length Il = length ScenarioA.d).
Proof.
  apply (feasible_flag_comes_with_a_plan ScenarioA.d ScenarioA.C ScenarioA.s
           ScenarioA.p ScenarioA.h (3 # 10) 2 10 None None coarse_world).
  - repeat split; repeat constructor; vm_compute; discriminate.
  - vm_compute. discriminate.
Defined.



(** ** More on the runner *)

(** X18: when the all-ones vector decodes to a cost below [BIGM / 2], the
    runner reports the instance as feasible, with a cost that is not above
    that of the all-ones vector (45 in scenario A of the specification);
    under a clock that never goes back the elapsed time it reports is not
    negative. *)
Theorem runner_reports_feasible_when_all_ones_is (d C s p h : list Q)
    (max_iter : Z) (alpha : Q) (L_max : Z) (time_limit : option Q)
    (w : world) (X1 Is1 : option (list Q)) (c1 : Q) :
  wf_instance d C s p h -> 0 <= alpha ->
  decode_solution (replicate (length d) 1%Z) d C s p h BIGM PENALTY
  = Ok (X1, Is1, c1) ->
  c1 < BIGM / 2 ->
  exists r log w',
    run_grasp_on_instance d C s p h max_iter alpha L_max time_limit w
    = Ok ((r, log), w') /\
    factivel_grasp r = true /\
    custo_grasp r <= c1 /\
    (monotone_clock (clock w) -> 0 <= tempo_seg r).
Proof.
  intros Hwf Ha Hdec Hc1. pose proof Hwf as (Hlen & _).
  rewrite decode_solution_spec in Hdec
    by (auto using length_replicate).
  set (w0 := World (clock w) (S (ticks w)) (rand w) (draws w) (reseed w)).
  destruct (random_randint_Ok 1 (10 ^ 9) w0 ltac:(lia)) as (seed & w1 & Hseed).
  assert (Hw1 : clock w1 = clock w /\ ticks w1 = S (ticks w)).
  { unfold random_randint in Hseed.
    destruct (10 ^ 9 <? 1)%Z; [discriminate|].
    injection Hseed as _ <-. simpl. auto. }
  destruct (grasp_spec d C s p h alpha Hwf Ha max_iter L_max
              (Some seed) time_limit w1)
    as (by' & X & Is & bc & ext & w2 & Hrun & Hclk & _ & _ & _ & Hdesc & Hst).
  apply descending_le in Hdesc. apply stamped_le in Hst.
  unfold cost_of in Hdesc.
  assert (E1 : snd (decode_spec (replicate (length d) 1%Z) d C s p h) = c1)
    by (injection Hdec as ->; reflexivity).
  rewrite E1 in Hdesc.
  do 3 eexists. split.
  - unfold run_grasp_on_instance.
    unfold bind at 1, time_time at 1. fold w0.
    rewrite (bind_Ok _ _ _ _ _ Hseed), (bind_Ok _ _ _ _ _ Hrun).
    reflexivity.
  - simpl. splits.
    + apply Qltb_true. lra.
    + exact Hdesc.
    + intros Hmono. destruct Hw1 as [Ec Et].
      rewrite Hclk, Ec.
      assert (clock w (ticks w) <= clock w (ticks w2))
        by (apply Hmono; lia).
      lra.
Qed.

Lemma runner_reports_feasible_witness :
  exists r log w',
    run_grasp_on_instance ScenarioA.d ScenarioA.C ScenarioA.s ScenarioA.p
      ScenarioA.h 1 (3 # 10) 10 None ticking_world
    = Ok ((r, log), w') /\
    factivel_grasp r = true /\
    custo_grasp r <= 45 /\
    (monotone_clock (clock ticking_world) -> 0 <= tempo_seg r).
Proof.
  apply (runner_reports_feasible_when_all_ones_is ScenarioA.d ScenarioA.C
           ScenarioA.s ScenarioA.p ScenarioA.h 1 (3 # 10) 10 None
           ticking_world (Some [10; 10; 10]) (Some [0; 0; 0]) 45).
  - repeat split; repeat constructor; vm_compute; discriminate.
  - vm_compute. discriminate.
  - vm_compute. reflexivity.
  - vm_compute. reflexivity.
Defined.

(** ** Reading instances and class names *)

Section LoaderFacts.

Variables (strip : string -> string) (split : string -> list string).
Variables (py_int : string -> option Z) (py_float : string -> option Q).

Lemma line_floats_inr (lines : list string) (k : nat) (xs : list Q) :
  line_floats split py_float lines k = inr xs ->
  (k < length lines)%nat.
Proof.
  unfold line_floats. destruct (lines !! k) eqn:E; [|discriminate].
  intros _. eapply lookup_lt_Some, E.
Qed.

Lemma line_floats_not_assert (lines : list string) (k : nat) :
  line_floats split py_float lines k <> inl LoadAssertionError.
Proof.
  unfold line_floats. destruct (lines !! k); [|discriminate].
  destruct (map_float py_float (split s)); discriminate.
Qed.

Lemma consistent_true (T : Z) (d s p h C : list Q) :
  consistent T d s p h C = true ->
  same_length d C s p h /\ Z.of_nat (length d) = T.
Proof.
  unfold consistent, same_length. rewrite !andb_true_iff.
  intros ((((H1 & H2) & H3) & H4) & H5).
  apply Z.eqb_eq in H1, H2. apply Nat.eqb_eq in H3, H4, H5.
  splits; lia.
Qed.

Lemma load_instance_inv (file : list string) (T : Z) (d s p h C : list Q) :
  load_instance strip split py_int py_float file = inr (T, d, s, p, h, C) ->
  consistent T d s p h C = true /\
  (6 <= length (stripped_lines strip file))%nat.
Proof.
  unfold load_instance.
  destruct (stripped_lines strip file !! 0%nat); [|discriminate].
  destruct (py_int s0); [|discriminate].
  destruct (line_floats split py_float _ 1) as [e|d'] eqn:E1;
    [discriminate|]. simpl.
  destruct (line_floats split py_float _ 2) as [e|s'] eqn:E2;
    [discriminate|]. simpl.
  destruct (line_floats split py_float _ 3) as [e|p'] eqn:E3;
    [discriminate|]. simpl.
  destruct (line_floats split py_float _ 4) as [e|h'] eqn:E4;
    [discriminate|]. simpl.
  destruct (line_floats split py_float _ 5) as [e|C'] eqn:E5;
    [discriminate|]. simpl.
  destruct (consistent z d' s' p' h' C') eqn:Ec; [|discriminate].
  intros H. injection H as <- <- <- <- <- <-.
  split; [exact Ec|]. apply line_floats_inr in E5. lia.
Qed.

(** X19: whatever [load_instance] returns satisfies the invariant of an
    instance -- the five arrays have the length [T] read from the first
    line -- so that [decode_solution] raises nothing on a loaded instance
    for any setup vector of [T] entries. *)
Theorem loaded_instance_is_consistent
    (file : list string) (T : Z) (d s p h C : list Q) :
  load_instance strip split py_int py_float file = inr (T, d, s, p, h, C) ->
  same_length d C s p h /\ Z.of_nat (length d) = T /\
  forall y, Z.of_nat (length y) = T ->
    exists dec, decode_solution y d C s p h BIGM PENALTY = Ok dec.
Proof.
  intros H. apply load_instance_inv in H as [Hc _].
  apply consistent_true in Hc as [Hlen HT].
  splits; auto.
  intros y Hy. exists (decode_spec y d C s p h).
  apply decode_solution_spec; [exact Hlen | lia].
Qed.

(** X20: a file with fewer than six non-blank lines never loads:
    [load_instance] raises [IndexError] or [ValueError] (from a line read
    before the missing one), never the assertion error of the length
    check. *)
Theorem short_file_does_not_load (file : list string) :
  (length (stripped_lines strip file) < 6)%nat ->
  load_instance strip split py_int py_float file = inl LoadIndexError \/
  load_instance strip split py_int py_float file = inl LoadValueError.
Proof.
  intros Hshort.
  destruct (load_instance strip split py_int py_float file)
    as [e|[[[[[T d] s] p] h] C]] eqn:E.
  - destruct e; auto. exfalso.
    unfold load_instance in E.
    destruct (stripped_lines strip file !! 0%nat); [|discriminate].
    destruct (py_int s); [|discriminate].
    destruct (line_floats split py_float _ 1) as [e|d'] eqn:E1;
      [simpl in E; injection E as ->;
       exact (line_floats_not_assert _ _ E1)|]. simpl in E.
    destruct (line_floats split py_float _ 2) as [e|s'] eqn:E2;
      [simpl in E; injection E as ->;
       exact (line_floats_not_assert _ _ E2)|]. simpl in E.
    destruct (line_floats split py_float _ 3) as [e|p'] eqn:E3;
      [simpl in E; injection E as ->;
       exact (line_floats_not_assert _ _ E3)|]. simpl in E.
    destruct (line_floats split py_float _ 4) as [e|h'] eqn:E4;
      [simpl in E; injection E as ->;
       exact (line_floats_not_assert _ _ E4)|]. simpl in E.
    destruct (line_floats split py_float _ 5) as [e|C'] eqn:E5;
      [simpl in E; injection E as ->;
       exact (line_floats_not_assert _ _ E5)|].
    apply line_floats_inr in E5. lia.
  - apply load_instance_inv in E as [_ H6]. lia.
Qed.

Lemma stripped_lines_app (f1 f2 : list string) :
  stripped_lines strip (f1 ++ f2)
  = stripped_lines strip f1 ++ stripped_lines strip f2.
Proof.
  unfold stripped_lines. rewrite List.filter_app, map_app. reflexivity.
Qed.

Lemma line_floats_app (l1 l2 : list string) (k : nat) :
  (k < length l1)%nat ->
  line_floats split py_float (l1 ++ l2) k = line_floats split py_float l1 k.
Proof.
  intros Hk. unfold line_floats. rewrite lookup_app_l by exact Hk.
  reflexivity.
Qed.

(** X21: [load_instance] looks at the first six non-blank lines only: a
    line that [strip] empties can be inserted anywhere without changing
    the result, and whatever follows the sixth non-blank line is
    ignored. *)
Theorem load_instance_skips_blank_and_trailing_lines :
  (forall before blank after,
     strip blank = "" ->
     load_instance strip split py_int py_float (before ++ blank :: after)
     = load_instance strip split py_int py_float (before ++ after)) /\
  (forall file extra,
     (6 <= length (stripped_lines strip file))%nat ->
     load_instance strip split py_int py_float (file ++ extra)
     = load_instance strip split py_int py_float file).
Proof.
  split.
  - intros before blank after Hblank.
    unfold load_instance.
    replace (stripped_lines strip (before ++ blank :: after))
      with (stripped_lines strip (before ++ after)); [reflexivity|].
    rewrite !stripped_lines_app. f_equal.
    unfold stripped_lines. simpl. rewrite Hblank. reflexivity.
  - intros file extra H6. unfold load_instance.
    rewrite stripped_lines_app.
    rewrite lookup_app_l by lia.
    rewrite !line_floats_app by lia. reflexivity.
Qed.

End LoaderFacts.

Section ClassNameFacts.

Variables (py_int : string -> option Z) (py_float : string -> option Q).

Lemma split_on_nonempty (sep : ascii) (s : string) : split_on sep s <> [].
Proof.
  induction s as [|c s IH]; simpl; [discriminate|].
  destruct (Ascii.eqb c sep); [discriminate|].
  destruct (split_on sep s); [congruence | discriminate].
Qed.

Lemma split_on_no_sep (sep : ascii) (s : string) :
  ~ In sep (String.list_ascii_of_string s) -> split_on sep s = [s].
Proof.
  induction s as [|c s IH]; simpl; intros H; [reflexivity|].
  destruct (Ascii.eqb c sep) eqn:E.
  - apply Ascii.eqb_eq in E. tauto.
  - rewrite IH by tauto. reflexivity.
Qed.

Lemma split_on_app (sep : ascii) (s rest : string) :
  ~ In sep (String.list_ascii_of_string s) ->
  split_on sep (s +:+ String sep rest) = s :: split_on sep rest.
Proof.
  induction s as [|c s IH]; simpl; intros H.
  - rewrite Ascii.eqb_refl. reflexivity.
  - destruct (Ascii.eqb c sep) eqn:E.
    + apply Ascii.eqb_eq in E. tauto.
    + change (String.append s (String sep rest))
        with (s +:+ String sep rest).
      rewrite IH by tauto. reflexivity.
Qed.

Lemma prefix_empty (s : string) : String.prefix "" s = true.
Proof. destruct s; reflexivity. Qed.

(** X22: the class name that the generator builds,
    [f"T{T}_tau{tau}_var{var}"], is read back by [parse_class_from_path]:
    when the three texts hold no underscore and [int] and [float] accept
    them, the function returns their three values. *)
Theorem class_name_round_trip
    (T tau var fname : string) (n : Z) (x v : Q) :
  no_underscore T -> no_underscore tau -> no_underscore var ->
  py_int T = Some n -> py_float tau = Some x -> py_float var = Some v ->
  parse_class_from_path py_int py_float [nome_classe T tau var; fname]
  = (Some n, Some x, Some v).
Proof.
  intros HT Htau Hvar Hn Hx Hv.
  unfold parse_class_from_path, nome_classe. simpl length. simpl Nat.ltb.
  cbv iota.
  change ("T" +:+ T +:+ "_tau" +:+ tau +:+ "_var" +:+ var)
    with (String "T" (T +:+ String "_" ("tau" +:+ tau +:+ "_var" +:+ var))).
  assert (Hs : split_on "_"
                 (String "T"
                    (T +:+ String "_" ("tau" +:+ tau +:+ "_var" +:+ var)))
               = [String "T" T; "tau" +:+ tau; "var" +:+ var]).
  { change (String "T"
              (T +:+ String "_" ("tau" +:+ tau +:+ "_var" +:+ var)))
      with ((String "T" T) +:+ String "_" ("tau" +:+ tau +:+ "_var" +:+ var)).
    rewrite split_on_app.
    2:{ simpl. intros [E|E]; [discriminate | exact (HT E)]. }
    f_equal.
    change ("tau" +:+ tau +:+ "_var" +:+ var)
      with (("tau" +:+ tau) +:+ String "_" ("var" +:+ var)).
    rewrite split_on_app.
    2:{ simpl. intros [E|[E|[E|E]]]; try discriminate. exact (Htau E). }
    f_equal. apply split_on_no_sep.
    simpl. intros [E|[E|[E|E]]]; try discriminate. exact (Hvar E). }
  rewrite Hs. simpl.
  change ("" +:+ tau) with tau. change ("" +:+ var) with var.
  rewrite !prefix_empty, Hn, Hx, Hv. reflexivity.
Qed.

Lemma parse_tokens_stops (pre post : list string) (bad : string) :
  rejected py_int py_float bad ->
  forall vals,
  parse_tokens py_int py_float (pre ++ bad :: post) vals
  = parse_tokens py_int py_float pre vals.
Proof.
  intros Hbad.
  induction pre as [|tok pre IH]; intros [[T_val tau_val] var_val];
    cbn [app parse_tokens].
  - destruct Hbad as [(H1 & H2)|[(H1 & H2 & H3)|(H1 & H2 & H3 & H4)]].
    + rewrite H1, H2. reflexivity.
    + rewrite H1, H2, H3. reflexivity.
    + rewrite H1, H2, H3, H4. reflexivity.
  - destruct (String.prefix "T" tok).
    { destruct (py_int (str_drop 1 tok)); [apply IH | reflexivity]. }
    destruct (String.prefix "tau" tok).
    { destruct (py_float (str_drop 3 tok)); [apply IH | reflexivity]. }
    destruct (String.prefix "var" tok).
    { destruct (py_float (str_drop 3 tok)); [apply IH | reflexivity]. }
    apply IH.
Qed.

(** X23: [parse_class_from_path] gives up at the first token that [int]
    or [float] rejects: the values of the tokens before it are kept and
    the tokens after it are not read, however well formed; and a path with
    fewer than two components yields no value at all. *)
Theorem class_name_parsing_stops_at_a_rejected_token :
  (forall (pre post : list string) (bad : string) (vals : class_params),
     rejected py_int py_float bad ->
     parse_tokens py_int py_float (pre ++ bad :: post) vals
     = parse_tokens py_int py_float pre vals) /\
  (forall (bad rest fname : string),
     rejected py_int py_float bad -> no_underscore bad ->
     parse_class_from_path py_int py_float
       [bad +:+ String "_" rest; fname]
     = (None, None, None)) /\
  (forall parts, (length parts < 2)%nat ->
     parse_class_from_path py_int py_float parts = (None, None, None)).
Proof.
  splits.
  - intros pre post bad vals Hbad. apply parse_tokens_stops, Hbad.
  - intros bad rest fname Hbad Hno.
    unfold parse_class_from_path. simpl length. simpl Nat.ltb. cbv iota.
    rewrite split_on_app by exact Hno.
    apply (parse_tokens_stops [] (split_on "_" rest) bad Hbad).
  - intros parts Hlt. unfold parse_class_from_path.
    apply Nat.ltb_lt in Hlt. rewrite Hlt. reflexivity.
Qed.

End ClassNameFacts.

Lemma class_name_round_trip_witness :
  parse_class_from_path
    (fun t => if String.eqb t "50" then Some 50%Z else None)
    (fun t => if String.eqb t "1.5" then Some (3 # 2)
              else if String.eqb t "0.2" then Some (1 # 5) else None)
    [nome_classe "50" "1.5" "0.2"; "inst_01.txt"]
  = (Some 50%Z, Some (3 # 2), Some (1 # 5)).
Proof.
  apply (class_name_round_trip
           (fun t => if String.eqb t "50" then Some 50%Z else None)
           (fun t => if String.eqb t "1.5" then Some (3 # 2)
                     else if String.eqb t "0.2" then Some (1 # 5) else None)
           "50" "1.5" "0.2" "inst_01.txt" 50 (3 # 2) (1 # 5)).
  - vm_compute. intuition discriminate.
  - vm_compute. intuition discriminate.
  - vm_compute. intuition discriminate.
  - reflexivity.
  - reflexivity.
  - reflexivity.
Defined.


Lemma loaded_instance_is_consistent_witness :
  same_length ScenarioA.d ScenarioA.C ScenarioA.s ScenarioA.p ScenarioA.h /\
  Z.of_nat (length ScenarioA.d) = 3%Z /\
  forall y, Z.of_nat (length y) = 3%Z ->
    exists dec,
      decode_solution y ScenarioA.d ScenarioA.C ScenarioA.s ScenarioA.p
        ScenarioA.h BIGM PENALTY = Ok dec.
Proof.
  apply (loaded_instance_is_consistent no_strip split_spaces digits_int
           digits_float scenario_A_file 3 ScenarioA.d ScenarioA.s
           ScenarioA.p ScenarioA.h ScenarioA.C).
  vm_compute. reflexivity.
Defined.

Lemma short_file_does_not_load_witness :
  load_instance no_strip split_spaces digits_int digits_float truncated_file
  = inl LoadIndexError \/
  load_instance no_strip split_spaces digits_int digits_float truncated_file
  = inl LoadValueError.
Proof.
  apply (short_file_does_not_load no_strip split_spaces digits_int
           digits_float truncated_file).
  vm_compute. lia.
Defined.

Lemma load_instance_skips_blank_witness :
  load_instance no_strip split_spaces digits_int digits_float
    (["3"; "10 10 10"] ++ "" :: ["5 5 5"; "1 1 1"; "1 1 1"; "30 30 30"])
  = load_instance no_strip split_spaces digits_int digits_float
      (["3"; "10 10 10"] ++ ["5 5 5"; "1 1 1"; "1 1 1"; "30 30 30"]).
Proof.
  apply (proj1 (load_instance_skips_blank_and_trailing_lines no_strip
                  split_spaces digits_int digits_float)).
  reflexivity.
Defined.

Lemma class_name_parsing_stops_witness :
  parse_tokens digits_int digits_float (["T50"] ++ "tauX" :: ["var2"])
    (None, None, None)
  = parse_tokens digits_int digits_float ["T50"] (None, None, None).
Proof.
  apply (proj1 (class_name_parsing_stops_at_a_rejected_token digits_int
                  digits_float)).
  right; left. vm_compute. auto.
Defined.

(** ** The two copies of the driver *)

Lemma same_random_refl (w : world) : same_random w w.
Proof. repeat split. Qed.

Lemma outcome_rel_bind {A A' B B'} (R : A -> A' -> Prop)
    (S : B -> B' -> Prop) (m : M A) (m' : M A')
    (k : A -> M B) (k' : A' -> M B') (w1 w2 : world) :
  outcome_rel R (m w1) (m' w2) ->
  (forall a a' v1 v2, R a a' -> same_random v1 v2 ->
     outcome_rel S (k a v1) (k' a' v2)) ->
  outcome_rel S (bind m k w1) (bind m' k' w2).
Proof.
  unfold bind, outcome_rel at 1.
  destruct (m w1) as [[a v1]|e1|]; destruct (m' w2) as [[a' v2]|e2|];
    intros H Hk; try (exfalso; exact H).
  - destruct H as [HR Hw]. apply Hk; assumption.
  - exact H.
  - exact I.
Qed.

Lemma outcome_rel_lift {A} (r : res A) (w1 w2 : world) :
  same_random w1 w2 -> outcome_rel eq (lift r w1) (lift r w2).
Proof. intros Hw. destruct r; simpl; auto. Qed.

Lemma outcome_rel_ret {A B} (R : A -> B -> Prop) (a : A) (b : B)
    (w1 w2 : world) :
  R a b -> same_random w1 w2 -> outcome_rel R (ret a w1) (ret b w2).
Proof. intros HR Hw. simpl. auto. Qed.

Lemma outcome_rel_random_choice {A} (l : list A) (w1 w2 : world) :
  same_random w1 w2 ->
  outcome_rel eq (random_choice l w1) (random_choice l w2).
Proof.
  intros (Hr & Hd & Hs). unfold random_choice. rewrite Hr, Hd.
  destruct (l !! _); simpl; [|reflexivity].
  split; [reflexivity|]. repeat split; simpl; congruence.
Qed.

Lemma outcome_rel_time_time (w1 w2 : world) :
  same_random w1 w2 ->
  outcome_rel (fun _ _ => True) (time_time w1) (time_time w2).
Proof. intros (Hr & Hd & Hs). simpl. repeat split; simpl; congruence. Qed.

Lemma outcome_rel_construction (d C s p h : list Q) (alpha : Q) (L_max : Z)
    (fuel : nat) :
  forall y t w1 w2, same_random w1 w2 ->
  outcome_rel eq
    (construction_loop d C s p h alpha L_max fuel y t w1)
    (construction_loop d C s p h alpha L_max fuel y t w2).
Proof.
  induction fuel as [|fuel IH]; intros y t w1 w2 Hw; simpl.
  - destruct (t <? length d)%nat; simpl; auto.
  - destruct (t <? length d)%nat; [|simpl; auto].
    eapply outcome_rel_bind; [apply outcome_rel_lift, Hw|].
    intros cands ? v1 v2 <- Hv.
    destruct cands as [|[L0 c0] rest]; [apply IH, Hv|].
    eapply outcome_rel_bind; [apply outcome_rel_random_choice, Hv|].
    intros L ? u1 u2 <- Hu. apply IH, Hu.
Qed.

Lemma sweep_loop_no_limit (d C s p h : list Q) (st : Q) (n t : nat)
    (y : list Z) (best : Q) (w : world) :
  sweep_loop d C s p h None st (S n) t y best w =
  (let* y1 := lift (flip y t) in
   let* dec := lift (decode_solution y1 d C s p h BIGM PENALTY) in
   if Qltb (snd dec) best then ret (y1, snd dec, true)
   else
     let* y2 := lift (flip y1 t) in
     sweep_loop d C s p h None st n (S t) y2 best) w.
Proof. reflexivity. Qed.

Lemma search_loop_no_limit (d C s p h : list Q) (st : Q) (fuel : nat)
    (y : list Z) (best : Q) (w : world) :
  search_loop d C s p h None st (S fuel) y best w =
  (let* r := sweep_loop d C s p h None st (length d) 0 y best in
   let '(y, best_cost, improved) := r in
   if improved : bool then search_loop d C s p h None st fuel y best_cost
   else ret (y, best_cost)) w.
Proof. reflexivity. Qed.

Lemma outcome_rel_sweep (d C s p h : list Q) (st1 st2 : Q) (n : nat) :
  forall t y best w1 w2, same_random w1 w2 ->
  outcome_rel eq
    (sweep_loop d C s p h None st1 n t y best w1)
    (sweep_loop d C s p h None st2 n t y best w2).
Proof.
  induction n as [|n IH]; intros t y best w1 w2 Hw.
  - simpl. auto.
  - rewrite !sweep_loop_no_limit.
    eapply outcome_rel_bind; [apply outcome_rel_lift, Hw|].
    intros y1 ? v1 v2 <- Hv.
    eapply outcome_rel_bind; [apply outcome_rel_lift, Hv|].
    intros dec ? u1 u2 <- Hu.
    destruct (Qltb (snd dec) best); [simpl; auto|].
    eapply outcome_rel_bind; [apply outcome_rel_lift, Hu|].
    intros y2 ? x1 x2 <- Hx. apply IH, Hx.
Qed.

Lemma outcome_rel_search (d C s p h : list Q) (st1 st2 : Q) (fuel : nat) :
  forall y best w1 w2, same_random w1 w2 ->
  outcome_rel eq
    (search_loop d C s p h None st1 fuel y best w1)
    (search_loop d C s p h None st2 fuel y best w2).
Proof.
  induction fuel as [|fuel IH]; intros y best w1 w2 Hw.
  - exact I.
  - rewrite !search_loop_no_limit.
    eapply outcome_rel_bind; [apply outcome_rel_sweep, Hw|].
    intros [[y1 c1] imp] ? v1 v2 <- Hv.
    destruct imp; [apply IH, Hv | simpl; auto].
Qed.

Lemma local_search_started (y : list Z) (d C s p h : list Q) (st : Q)
    (w : world) :
  local_search y d C s p h None (Some st) w =
  (let* dec := lift (decode_solution y d C s p h BIGM PENALTY) in
   search_loop d C s p h None st (S (2 ^ length d)) y (snd dec)) w.
Proof.
  unfold local_search, bind. destruct (lift _ w) as [[dec v]| |]; reflexivity.
Qed.

Lemma outcome_rel_local_search (y : list Z) (d C s p h : list Q)
    (st1 st2 : Q) (w1 w2 : world) :
  same_random w1 w2 ->
  outcome_rel eq
    (local_search y d C s p h None (Some st1) w1)
    (local_search y d C s p h None (Some st2) w2).
Proof.
  intros Hw. rewrite !local_search_started.
  eapply outcome_rel_bind; [apply outcome_rel_lift, Hw|].
  intros dec ? v1 v2 <- Hv.
  apply outcome_rel_search, Hv.
Qed.

Lemma grasp_loop_no_limit (d C s p h : list Q) (alpha : Q) (L_max : Z)
    (st : Q) (n : nat) (best_y : list Z) (best_cost : Q) (log : list sample)
    (w : world) :
  grasp_loop d C s p h alpha L_max None st (S n) best_y best_cost log w =
  (let* y :=
     greedy_randomized_construction d C s p h alpha
       (Z.min L_max (Z.of_nat (length d))) in
   let* dec := lift (decode_solution y d C s p h BIGM PENALTY) in
   if Qle_bool (BIGM / 2) (snd dec) then
     grasp_loop d C s p h alpha L_max None st n best_y best_cost log
   else
     let* r := local_search y d C s p h None (Some st) in
     let '(y, cost) := r in
     if Qltb cost best_cost then
       let* now := time_time in
       grasp_loop d C s p h alpha L_max None st n y cost
         (log ++ [(now - st, cost)])
     else grasp_loop d C s p h alpha L_max None st n best_y best_cost log) w.
Proof. reflexivity. Qed.

Lemma grasp_loop_benchmark_no_limit (d C s p h : list Q) (alpha : Q)
    (L_max : Z) (st : Q) (n : nat) (best_y : list Z) (best_cost : Q)
    (w : world) :
  grasp_loop_benchmark d C s p h alpha L_max None st (S n) best_y best_cost
    w =
  (let* y :=
     greedy_randomized_construction d C s p h alpha
       (Z.min L_max (Z.of_nat (length d))) in
   let* dec := lift (decode_solution y d C s p h BIGM PENALTY) in
   if Qle_bool (BIGM / 2) (snd dec) then
     grasp_loop_benchmark d C s p h alpha L_max None st n best_y best_cost
   else
     let* r := local_search y d C s p h None (Some st) in
     let '(y, cost) := r in
     if Qltb cost best_cost then
       grasp_loop_benchmark d C s p h alpha L_max None st n y cost
     else
       grasp_loop_benchmark d C s p h alpha L_max None st n best_y
         best_cost) w.
Proof. reflexivity. Qed.

Lemma outcome_rel_grasp_loop (d C s p h : list Q) (alpha : Q) (L_max : Z)
    (st1 st2 : Q) (n : nat) :
  forall best_y best_cost log w1 w2, same_random w1 w2 ->
  outcome_rel (fun r1 r2 => (fst (fst r1), snd (fst r1)) = r2)
    (grasp_loop d C s p h alpha L_max None st1 n best_y best_cost log w1)
    (grasp_loop_benchmark d C s p h alpha L_max None st2 n best_y best_cost
       w2).
Proof.
  induction n as [|n IH]; intros best_y best_cost log w1 w2 Hw.
  - simpl. auto.
  - rewrite grasp_loop_no_limit, grasp_loop_benchmark_no_limit.
    eapply outcome_rel_bind.
    { unfold greedy_randomized_construction.
      apply outcome_rel_construction, Hw. }
    intros yc ? v1 v2 <- Hv.
    eapply outcome_rel_bind; [apply outcome_rel_lift, Hv|].
    intros dec ? u1 u2 <- Hu.
    destruct (Qle_bool (BIGM / 2) (snd dec)); [apply IH, Hu|].
    eapply outcome_rel_bind; [apply outcome_rel_local_search, Hu|].
    intros [y1 c1] ? x1 x2 <- Hx.
    destruct (Qltb c1 best_cost); [|apply IH, Hx].
    unfold bind at 1, time_time at 1.
    apply IH. destruct Hx as (Hr & Hd & Hs). repeat split; assumption.
Qed.

(** X24: without a time limit the two copies of the driver
    ([solvers/grasp_csilsp.py] and [benchmark/grasp_csilsp.py]) agree: run
    from the same state of the random source they return the same
    [best_y], [X], [I] and [best_cost], or raise the same exception,
    whatever the clocks say; the log and its extra readings of the clock
    change nothing in the search. *)
Theorem the_two_drivers_agree_without_time_limit (d C s p h : list Q)
    (max_iter : Z) (alpha : Q) (L_max : Z) (seed : option Z)
    (w1 w2 : world) :
  same_random w1 w2 ->
  outcome_rel
    (fun (r1 : grasp_result) r2 =>
       let '(best_y, X, Is, best_cost, _) := r1 in
       r2 = (best_y, X, Is, best_cost))
    (grasp d C s p h max_iter alpha L_max seed None w1)
    (grasp_benchmark d C s p h max_iter alpha L_max seed None w2).
Proof.
  intros Hw. unfold grasp, grasp_benchmark.
  eapply outcome_rel_bind with (R := eq).
  { destruct Hw as (Hr & Hd & Hs).
    destruct seed; simpl; repeat split; simpl; congruence. }
  intros [] ? v1 v2 <- Hv.
  eapply outcome_rel_bind; [apply outcome_rel_time_time, Hv|].
  intros st1 st2 u1 u2 _ Hu.
  eapply outcome_rel_bind; [apply outcome_rel_lift, Hu|].
  intros dec ? x1 x2 <- Hx.
  unfold bind at 1, time_time at 1.
  eapply outcome_rel_bind.
  { apply outcome_rel_grasp_loop.
    destruct Hx as (Hr & Hd & Hs). repeat split; assumption. }
  intros [[by1 bc1] log1] [by2 bc2] z1 z2 E Hz. simpl in E.
  injection E as <- <-.
  eapply outcome_rel_bind; [apply outcome_rel_lift, Hz|].
  intros [[X Is] c] ? q1 q2 <- Hq.
  simpl. auto.
Qed.

Lemma the_two_drivers_agree_witness :
  outcome_rel
    (fun (r1 : grasp_result) r2 =>
       let '(best_y, X, Is, best_cost, _) := r1 in
       r2 = (best_y, X, Is, best_cost))
    (grasp CostlySetup.d CostlySetup.C CostlySetup.s CostlySetup.p
       CostlySetup.h 3 (3 # 10) 10 (Some 42%Z) None coarse_world)
    (grasp_benchmark CostlySetup.d CostlySetup.C CostlySetup.s
       CostlySetup.p CostlySetup.h 3 (3 # 10) 10 (Some 42%Z) None
       ticking_world).
Proof.
  apply (the_two_drivers_agree_without_time_limit CostlySetup.d
           CostlySetup.C CostlySetup.s CostlySetup.p CostlySetup.h
           3 (3 # 10) 10 (Some 42%Z) coarse_world ticking_world).
  repeat split.
Defined.
